(** * Step plots: the fill polygon, the stroke paths, the data range and the
    legend thumbnail of [plotter.Step]

    A shallow embedding of [Step] (package [plotter]) in its two versions:
    the current one, with the fields [StepStyle] and [FillColor], and the
    earlier one of [plotter/step.go], with [StepType] and [ShadeColor].

    - A [float64] (and a [vg.Length], which is one) is a primitive binary64
      float, so coordinates are computed exactly as the program computes them.
    - A Go slice is a list; indexing and slicing outside the bounds panic,
      which is [None] in the option monad.
    - The canvas is a collaborator: every call that draws on it is recorded
      as a command, and a method draws the list of commands it returns. *)

From Stdlib Require Import ZArith Floats.
From stdpp Require Import base option list.

Local Open Scope Z_scope.

(** ** Go slices *)
Module go.

Definition len {A} (s : list A) : Z := Z.of_nat (length s).

(** [s[i]]: panics unless [0 <= i < len(s)]. *)
Definition index {A} (s : list A) (i : Z) : option A :=
  if bool_decide (0 ≤ i) then s !! Z.to_nat i else None.

(** [s[lo:]]: panics unless [0 <= lo <= len(s)]. *)
Definition slice_from {A} (s : list A) (lo : Z) : option (list A) :=
  if bool_decide (0 ≤ lo ≤ len s) then Some (drop (Z.to_nat lo) s) else None.

End go.

(** ** Package [math]: the functions of Go's library that [DataRange] calls *)
Module math.

Definition MaxFloat64 : float := 0x1.fffffffffffffp+1023%float.

(** [Inf(sign)]: plus infinity if [sign >= 0], minus infinity otherwise. *)
Definition Inf (sign : Z) : float :=
  if bool_decide (0 ≤ sign) then infinity else neg_infinity.

Definition NaN : float := nan.

(** [IsNaN(f)] is [f != f]. *)
Definition IsNaN (f : float) : bool := negb (f =? f)%float.

(** [IsInf(f, sign)]: [sign >= 0 && f > MaxFloat64 || sign <= 0 && f < -MaxFloat64]. *)
Definition IsInf (f : float) (sign : Z) : bool :=
  (bool_decide (0 ≤ sign) && (MaxFloat64 <? f)%float)
  || (bool_decide (sign ≤ 0) && (f <? - MaxFloat64)%float).

(** [Signbit(x)]: the sign bit of [x] is set.  [Min] and [Max] ask it of
    zeros only. *)
Definition Signbit (x : float) : bool := PrimFloat.get_sign x.

Definition Min (x y : float) : float :=
  if IsInf x (-1) || IsInf y (-1) then Inf (-1)
  else if IsNaN x || IsNaN y then NaN
  else if (x =? 0)%float && (x =? y)%float then (if Signbit x then x else y)
  else if (x <? y)%float then x else y.

Definition Max (x y : float) : float :=
  if IsInf x 1 || IsInf y 1 then Inf 1
  else if IsNaN x || IsNaN y then NaN
  else if (x =? 0)%float && (x =? y)%float then (if Signbit x then y else x)
  else if (y <? x)%float then x else y.

End math.

(** ** Package [image/color] *)
Module color.

(** A colour is opaque to the plotter: it is only handed to the canvas. *)
Inductive Color : Type := RGBA (r g b a : Z).

Definition Black : Color := RGBA 0 0 0 255.

End color.

(** ** Package [vg]: lengths, points and paths *)
Module vg.

(** [type Length float64] *)
Abbreviation Length := float (only parsing).

Record Point : Type := mkPoint { X : Length; Y : Length }.

(** Modelled from the spec: the canvas path primitive ([vg.Path], whose
    file is not among the sources) supports [moveTo], [lineTo] and
    [close]; a path is the sequence of its components, and each of the
    three methods appends one. *)
Inductive PathComp : Type :=
| MoveComp (pos : Point)
| LineComp (pos : Point)
| CloseComp.

Definition Path : Type := list PathComp.

Definition Move (p : Path) (pt : Point) : Path := p ++ [MoveComp pt].
Definition Line (p : Path) (pt : Point) : Path := p ++ [LineComp pt].
Definition Close (p : Path) : Path := p ++ [CloseComp].

(** The points a path passes through, in order. *)
Definition vertices (p : Path) : list Point :=
  omap (fun comp => match comp with
                    | MoveComp pt | LineComp pt => Some pt
                    | CloseComp => None
                    end) p.

End vg.

(** ** Package [vg/draw]: the canvas *)
Module draw.

Record LineStyle : Type := mkLineStyle {
  Color : color.Color;
  Width : vg.Length;
  Dashes : list vg.Length;
  DashOffs : vg.Length
}.

(** A canvas is its rectangle ([Min], [Max]) and the primitives the
    plotter delegates to: line clipping, polygon clipping and the centre
    of the rectangle.  They belong to package [draw], whose files are not
    among the sources, and stay parameters of every statement. *)
Record Canvas : Type := mkCanvas {
  Min : vg.Point;
  Max : vg.Point;
  ClipLinesXY : list vg.Point -> list (list vg.Point);
  ClipPolygonY : list vg.Point -> list vg.Point;
  Center : vg.Point
}.

(** The drawing calls a plotter makes on a canvas. *)
Inductive Cmd : Type :=
| SetColor (c : color.Color)
| Fill (p : vg.Path)
| SetLineStyle (sty : LineStyle)
| Stroke (p : vg.Path)
| FillPolygon (c : color.Color) (poly : list vg.Point)
| StrokeLine2 (sty : LineStyle) (x1 y1 x2 y2 : vg.Length).

End draw.

(** ** Package [plot]: what a plotter reads of the plot it is drawn on *)
Module plot.

Record Axis : Type := mkAxis { Min : float; Max : float }.

(** [Transforms] gives the maps from data to device coordinates for a
    canvas; it stays a parameter. *)
Record Plot : Type := mkPlot {
  X : Axis;
  Y : Axis;
  Transforms : draw.Canvas -> (float -> vg.Length) * (float -> vg.Length)
}.

End plot.

(** ** Package [plotter]: the step plotter, current version *)
Module plotter.

Record XY : Type := mkXY { X : float; Y : float }.

Definition XYs : Type := list XY.

(** An [XYer] is read through [Len] and [XY(i)]: the sequence of its points. *)
Definition XYer : Type := list XY.

Inductive error : Type := InvalidInput.

(** Modelled from the spec: [CopyXYs] ([plotter.go] is not among the
    sources) builds the point sequence from the caller's data and fails
    with an InvalidInput error if the source yields a malformed point,
    one with a coordinate that is not finite. *)
Definition malformed (p : XY) : bool :=
  negb (PrimFloat.is_finite (X p) && PrimFloat.is_finite (Y p)).

Fixpoint CopyXYs (data : XYer) : XYs + error :=
  match data with
  | [] => inl []
  | p :: data' =>
      if malformed p then inr InvalidInput
      else match CopyXYs data' with
           | inl cpy => inl (p :: cpy)
           | inr err => inr err
           end
  end.

(** Modelled from the spec: [XYRange] ([plotter.go] is not among the
    sources) computes the tight bounding box of the points: the least
    and the greatest x and the least and the greatest y. *)
Definition Range (vs : list float) : float * float :=
  foldl (fun '(min, max) v => (math.Min min v, math.Max max v))
        (math.Inf 1, math.Inf (-1)) vs.

Definition XYRange (xys : XYs) : float * float * float * float :=
  let '(xmin, xmax) := Range (map X xys) in
  let '(ymin, ymax) := Range (map Y xys) in
  (xmin, xmax, ymin, ymax).

(** [type StepKind int] *)
Definition StepKind : Type := Z.

Definition PreStep : StepKind := 0.
Definition MidStep : StepKind := 1.
Definition PostStep : StepKind := 2.

(** A nil [*draw.LineStyle] and a nil [color.Color] are [None]. *)
Record Step : Type := mkStep {
  Step_XYs : XYs;
  StepStyle : StepKind;
  LineStyle : option draw.LineStyle;
  FillColor : option color.Color
}.

Section NewStep.

(** [DefaultLineStyle] is a variable of the package declared in a file
    that is not among the sources. *)
Variable DefaultLineStyle : draw.LineStyle.

(** The fields the composite literal leaves out are zero: [PreStep] and
    a nil colour. *)
Definition NewStep (xys : XYer) : Step + error :=
  match CopyXYs xys with
  | inr err => inr err
  | inl data =>
      inl {| Step_XYs := data;
             StepStyle := 0;
             LineStyle := Some DefaultLineStyle;
             FillColor := None |}
  end.

End NewStep.

(** *** [Plot]: the fill polygon *)

(** The body of [for i, pt := range ps[1:]] of the fill, with [n = len(ps)]. *)
Definition fillIter (style : StepKind) (n i : Z) (prev pt : vg.Point)
    (pa : vg.Path) : vg.Path :=
  if bool_decide (style = PreStep) then
    let pa := vg.Line pa (vg.mkPoint (vg.X prev) (vg.Y pt)) in
    vg.Line pa pt
  else if bool_decide (style = MidStep) then
    let pa := vg.Line pa (vg.mkPoint ((vg.X prev + vg.X pt) / 2)%float (vg.Y prev)) in
    let pa := vg.Line pa (vg.mkPoint ((vg.X prev + vg.X pt) / 2)%float (vg.Y pt)) in
    vg.Line pa pt
  else if bool_decide (style = PostStep) then
    let pa := vg.Line pa (vg.mkPoint (vg.X pt) (vg.Y prev)) in
    if bool_decide (i ≠ n - 2) then vg.Line pa pt else pa
  else pa.

(** The loop itself: [i] counts from 0 over [ps[1:]], [prev] is updated
    at the end of every iteration. *)
Fixpoint fillLoop (style : StepKind) (n i : Z) (prev : vg.Point)
    (pa : vg.Path) (rest : list vg.Point) : vg.Path :=
  match rest with
  | [] => pa
  | pt :: rest' =>
      fillLoop style n (i + 1) pt (fillIter style n i prev pt pa) rest'
  end.

(** The path handed to [c.Fill]: from [var pa vg.Path] to [pa.Close()].
    The index of the last point is written [len(pts.XYs)-1] in the source;
    [ps] is made with the length of [pts.XYs]. *)
Definition fillPath (style : StepKind) (ps : list vg.Point)
    (minY : vg.Length) : option vg.Path :=
  p0 ← go.index ps 0;
  let pa := vg.Move [] (vg.mkPoint (vg.X p0) minY) in
  let prev := p0 in
  let pa := if bool_decide (style ≠ PreStep) then vg.Line pa prev else pa in
  tl ← go.slice_from ps 1;
  let pa := fillLoop style (go.len ps) 0 prev pa tl in
  pn ← go.index ps (go.len ps - 1);
  let pa := vg.Line pa (vg.mkPoint (vg.X pn) minY) in
  Some (vg.Close pa).

(** *** [Plot]: the stroke of the clipped lines *)

(** The body of [for _, pt := range l[1:]] of the stroke. *)
Definition strokeIter (style : StepKind) (prev pt : vg.Point)
    (p : vg.Path) : vg.Path :=
  let p :=
    if bool_decide (style = PreStep) then
      vg.Line p (vg.mkPoint (vg.X prev) (vg.Y pt))
    else if bool_decide (style = MidStep) then
      let p := vg.Line p (vg.mkPoint ((vg.X prev + vg.X pt) / 2)%float (vg.Y prev)) in
      vg.Line p (vg.mkPoint ((vg.X prev + vg.X pt) / 2)%float (vg.Y pt))
    else if bool_decide (style = PostStep) then
      vg.Line p (vg.mkPoint (vg.X pt) (vg.Y prev))
    else p in
  vg.Line p pt.

Fixpoint strokeLoop (style : StepKind) (prev : vg.Point) (p : vg.Path)
    (rest : list vg.Point) : vg.Path :=
  match rest with
  | [] => p
  | pt :: rest' => strokeLoop style pt (strokeIter style prev pt p) rest'
  end.

(** The path handed to [c.Stroke] for one clipped line [l]. *)
Definition strokePath (style : StepKind) (l : list vg.Point) : option vg.Path :=
  prev ← go.index l 0;
  let p := vg.Move [] prev in
  tl ← go.slice_from l 1;
  Some (strokeLoop style prev p tl).

(** [for _, l := range lines]: an empty line is passed over. *)
Fixpoint strokeLines (style : StepKind) (lines : list (list vg.Point))
    : option (list draw.Cmd) :=
  match lines with
  | [] => Some []
  | l :: lines' =>
      if bool_decide (go.len l = 0) then strokeLines style lines'
      else
        p ← strokePath style l;
        cmds ← strokeLines style lines';
        Some (draw.Stroke p :: cmds)
  end.

(** [ps]: the points in device coordinates, a fresh slice. *)
Definition devicePoints (trX trY : float -> vg.Length) (xys : XYs)
    : list vg.Point :=
  map (fun p => vg.mkPoint (trX (X p)) (trY (Y p))) xys.

(** [Plot] draws the step: the commands it sends to the canvas, or
    [None] if it panics. *)
Definition Plot (pts : Step) (c : draw.Canvas) (plt : plot.Plot)
    : option (list draw.Cmd) :=
  let '(trX, trY) := plot.Transforms plt c in
  let ps := devicePoints trX trY (Step_XYs pts) in
  filled ←
    match FillColor pts with
    | Some col =>
        if bool_decide (0 < go.len ps) then
          let minY := trY (plot.Min (plot.Y plt)) in
          pa ← fillPath (StepStyle pts) ps minY;
          Some [draw.SetColor col; draw.Fill pa]
        else Some []
    | None => Some []
    end;
  stroked ←
    match LineStyle pts with
    | Some sty =>
        let lines := draw.ClipLinesXY c ps in
        if bool_decide (go.len lines = 0) then Some []
        else
          cmds ← strokeLines (StepStyle pts) lines;
          Some (draw.SetLineStyle sty :: cmds)
    | None => Some []
    end;
  Some (filled ++ stroked).

(** *** [DataRange] *)
Definition DataRange (pts : Step) : float * float * float * float :=
  match FillColor pts with
  | Some _ =>
      let '(xmin, xmax, ymin, ymax) := XYRange (Step_XYs pts) in
      let ymin := math.Min ymin 0 in
      let ymax := math.Max ymax 0 in
      (xmin, xmax, ymin, ymax)
  | None => XYRange (Step_XYs pts)
  end.

(** *** [Thumbnail] *)
Definition Thumbnail (pts : Step) (c : draw.Canvas) : list draw.Cmd :=
  match FillColor pts with
  | Some col =>
      let topY :=
        match LineStyle pts with
        | None => vg.Y (draw.Max c)
        | Some _ => ((vg.Y (draw.Min c) + vg.Y (draw.Max c)) / 2)%float
        end in
      let points :=
        [ vg.mkPoint (vg.X (draw.Min c)) (vg.Y (draw.Min c));
          vg.mkPoint (vg.X (draw.Min c)) topY;
          vg.mkPoint (vg.X (draw.Max c)) topY;
          vg.mkPoint (vg.X (draw.Max c)) (vg.Y (draw.Min c)) ] in
      let poly := draw.ClipPolygonY c points in
      [draw.FillPolygon col poly]
  | None => []
  end
  ++
  match LineStyle pts with
  | Some sty =>
      let y := vg.Y (draw.Center c) in
      [draw.StrokeLine2 sty (vg.X (draw.Min c)) y (vg.X (draw.Max c)) y]
  | None => []
  end.

End plotter.

(** ** Package [plotter], earlier version: [plotter/step.go] *)
Module plotter_old.

(** [type StepType int] *)
Definition StepType : Type := Z.

Definition StepTypePre : StepType := 0.
Definition StepTypeMid : StepType := 1.
Definition StepTypePost : StepType := 2.

Record Step : Type := mkStep {
  Step_XYs : plotter.XYs;
  Step_StepType : StepType;
  LineStyle : option draw.LineStyle;
  ShadeColor : option color.Color
}.

Definition fillIter (ty : StepType) (n i : Z) (prev pt : vg.Point)
    (pa : vg.Path) : vg.Path :=
  if bool_decide (ty = StepTypePre) then
    let pa := vg.Line pa (vg.mkPoint (vg.X prev) (vg.Y pt)) in
    vg.Line pa pt
  else if bool_decide (ty = StepTypeMid) then
    let pa := vg.Line pa (vg.mkPoint ((vg.X prev + vg.X pt) / 2)%float (vg.Y prev)) in
    let pa := vg.Line pa (vg.mkPoint ((vg.X prev + vg.X pt) / 2)%float (vg.Y pt)) in
    vg.Line pa pt
  else if bool_decide (ty = StepTypePost) then
    let pa := vg.Line pa (vg.mkPoint (vg.X pt) (vg.Y prev)) in
    if bool_decide (i ≠ n - 2) then vg.Line pa pt else pa
  else pa.

Fixpoint fillLoop (ty : StepType) (n i : Z) (prev : vg.Point)
    (pa : vg.Path) (rest : list vg.Point) : vg.Path :=
  match rest with
  | [] => pa
  | pt :: rest' => fillLoop ty n (i + 1) pt (fillIter ty n i prev pt pa) rest'
  end.

Definition fillPath (ty : StepType) (ps : list vg.Point)
    (minY : vg.Length) : option vg.Path :=
  p0 ← go.index ps 0;
  let pa := vg.Move [] (vg.mkPoint (vg.X p0) minY) in
  let prev := p0 in
  let pa := if bool_decide (ty ≠ StepTypePre) then vg.Line pa prev else pa in
  tl ← go.slice_from ps 1;
  let pa := fillLoop ty (go.len ps) 0 prev pa tl in
  pn ← go.index ps (go.len ps - 1);
  let pa := vg.Line pa (vg.mkPoint (vg.X pn) minY) in
  Some (vg.Close pa).

Definition strokeIter (ty : StepType) (prev pt : vg.Point)
    (p : vg.Path) : vg.Path :=
  let p :=
    if bool_decide (ty = StepTypePre) then
      vg.Line p (vg.mkPoint (vg.X prev) (vg.Y pt))
    else if bool_decide (ty = StepTypeMid) then
      let p := vg.Line p (vg.mkPoint ((vg.X prev + vg.X pt) / 2)%float (vg.Y prev)) in
      vg.Line p (vg.mkPoint ((vg.X prev + vg.X pt) / 2)%float (vg.Y pt))
    else if bool_decide (ty = StepTypePost) then
      vg.Line p (vg.mkPoint (vg.X pt) (vg.Y prev))
    else p in
  vg.Line p pt.

Fixpoint strokeLoop (ty : StepType) (prev : vg.Point) (p : vg.Path)
    (rest : list vg.Point) : vg.Path :=
  match rest with
  | [] => p
  | pt :: rest' => strokeLoop ty pt (strokeIter ty prev pt p) rest'
  end.

Definition strokePath (ty : StepType) (l : list vg.Point) : option vg.Path :=
  prev ← go.index l 0;
  let p := vg.Move [] prev in
  tl ← go.slice_from l 1;
  Some (strokeLoop ty prev p tl).

Fixpoint strokeLines (ty : StepType) (lines : list (list vg.Point))
    : option (list draw.Cmd) :=
  match lines with
  | [] => Some []
  | l :: lines' =>
      if bool_decide (go.len l = 0) then strokeLines ty lines'
      else
        p ← strokePath ty l;
        cmds ← strokeLines ty lines';
        Some (draw.Stroke p :: cmds)
  end.

Definition Plot (pts : Step) (c : draw.Canvas) (plt : plot.Plot)
    : option (list draw.Cmd) :=
  let '(trX, trY) := plot.Transforms plt c in
  let ps := plotter.devicePoints trX trY (Step_XYs pts) in
  shaded ←
    match ShadeColor pts with
    | Some col =>
        if bool_decide (0 < go.len ps) then
          let minY := trY (plot.Min (plot.Y plt)) in
          pa ← fillPath (Step_StepType pts) ps minY;
          Some [draw.SetColor col; draw.Fill pa]
        else Some []
    | None => Some []
    end;
  stroked ←
    match LineStyle pts with
    | Some sty =>
        let lines := draw.ClipLinesXY c ps in
        if bool_decide (go.len lines = 0) then Some []
        else
          cmds ← strokeLines (Step_StepType pts) lines;
          Some (draw.SetLineStyle sty :: cmds)
    | None => Some []
    end;
  Some (shaded ++ stroked).

Definition DataRange (pts : Step) : float * float * float * float :=
  match ShadeColor pts with
  | Some _ =>
      let '(xmin, xmax, ymin, ymax) := plotter.XYRange (Step_XYs pts) in
      let ymin := math.Min ymin 0 in
      let ymax := math.Max ymax 0 in
      (xmin, xmax, ymin, ymax)
  | None => plotter.XYRange (Step_XYs pts)
  end.

(** The line is drawn only when there is no shade: [else if]. *)
Definition Thumbnail (pts : Step) (c : draw.Canvas) : list draw.Cmd :=
  match ShadeColor pts with
  | Some col =>
      let points :=
        [ vg.mkPoint (vg.X (draw.Min c)) (vg.Y (draw.Min c));
          vg.mkPoint (vg.X (draw.Min c)) (vg.Y (draw.Max c));
          vg.mkPoint (vg.X (draw.Max c)) (vg.Y (draw.Max c));
          vg.mkPoint (vg.X (draw.Max c)) (vg.Y (draw.Min c)) ] in
      let poly := draw.ClipPolygonY c points in
      [draw.FillPolygon col poly]
  | None =>
      match LineStyle pts with
      | Some sty =>
          let y := vg.Y (draw.Center c) in
          [draw.StrokeLine2 sty (vg.X (draw.Min c)) y (vg.X (draw.Max c)) y]
      | None => []
      end
  end.

End plotter_old.

(** ** What the statements below speak of *)

(** The pairs [(prev, pt)] of consecutive points of a line. *)
Definition consecutive (l : list vg.Point) : list (vg.Point * vg.Point) :=
  zip l (drop 1 l).

(** The vertices a step of each kind puts between [prev] and [pt]; none for
    a value that is not one of the three kinds. *)
Definition between (style : plotter.StepKind) (prev pt : vg.Point)
    : list vg.Point :=
  if bool_decide (style = plotter.PreStep) then
    [vg.mkPoint (vg.X prev) (vg.Y pt)]
  else if bool_decide (style = plotter.MidStep) then
    [vg.mkPoint ((vg.X prev + vg.X pt) / 2)%float (vg.Y prev);
     vg.mkPoint ((vg.X prev + vg.X pt) / 2)%float (vg.Y pt)]
  else if bool_decide (style = plotter.PostStep) then
    [vg.mkPoint (vg.X pt) (vg.Y prev)]
  else [].

(** The old step plotter's fields under their new names. *)
Definition renamed (s : plotter_old.Step) : plotter.Step :=
  {| plotter.Step_XYs := plotter_old.Step_XYs s;
     plotter.StepStyle := plotter_old.Step_StepType s;
     plotter.LineStyle := plotter_old.LineStyle s;
     plotter.FillColor := plotter_old.ShadeColor s |}.

(** The paths a list of commands strokes, and the paths it fills, in order. *)
Definition strokes (cmds : list draw.Cmd) : list vg.Path :=
  omap (fun cmd => match cmd with draw.Stroke p => Some p | _ => None end) cmds.

Definition fills (cmds : list draw.Cmd) : list vg.Path :=
  omap (fun cmd => match cmd with draw.Fill p => Some p | _ => None end) cmds.

(** The segments the stroke adds for one pair of points: the vertices of
    the step, then the point itself. *)
Definition strokeTo (style : plotter.StepKind) (pr : vg.Point * vg.Point)
    : vg.Path :=
  vg.LineComp <$> (between style pr.1 pr.2 ++ [pr.2]).

(** The outline of a post step over the pairs of a line: a horizontal and
    a vertical segment for every pair, the horizontal one alone for the
    final pair. *)
Definition postTo (pr : vg.Point * vg.Point) : vg.Path :=
  [vg.LineComp (vg.mkPoint (vg.X pr.2) (vg.Y pr.1)); vg.LineComp pr.2].

Definition postOutline (pairs : list (vg.Point * vg.Point)) : vg.Path :=
  concat (postTo <$> take (length pairs - 1) pairs)
  ++ match last pairs with
     | Some (prev, pt) => [vg.LineComp (vg.mkPoint (vg.X pt) (vg.Y prev))]
     | None => []
     end.

(** The device points and the baseline [minY] that [Plot] computes on a
    canvas, and where the plot's transform puts the data value zero. *)
Definition pointsOn (pts : plotter.Step) (c : draw.Canvas) (plt : plot.Plot)
    : list vg.Point :=
  plotter.devicePoints (plot.Transforms plt c).1 (plot.Transforms plt c).2
    (plotter.Step_XYs pts).

Definition minYOn (c : draw.Canvas) (plt : plot.Plot) : vg.Length :=
  (plot.Transforms plt c).2 (plot.Min (plot.Y plt)).

Definition zeroOn (c : draw.Canvas) (plt : plot.Plot) : vg.Length :=
  (plot.Transforms plt c).2 0%float.

(** The commands of the two halves of [Plot], with the panics left out:
    the fill, and the stroke of the clipped lines. *)
Definition fillCmds (pts : plotter.Step) (c : draw.Canvas) (plt : plot.Plot)
    : list draw.Cmd :=
  match plotter.FillColor pts with
  | Some col =>
      match plotter.fillPath (plotter.StepStyle pts) (pointsOn pts c plt)
              (minYOn c plt) with
      | Some pa => [draw.SetColor col; draw.Fill pa]
      | None => []
      end
  | None => []
  end.

Definition strokeCmds (pts : plotter.Step) (c : draw.Canvas) (plt : plot.Plot)
    : list draw.Cmd :=
  match plotter.LineStyle pts with
  | Some sty =>
      match draw.ClipLinesXY c (pointsOn pts c plt) with
      | [] => []
      | lines =>
          draw.SetLineStyle sty
            :: (draw.Stroke <$> omap (plotter.strokePath (plotter.StepStyle pts)) lines)
      end
  | None => []
  end.

(** The y-coordinates of the first and of the last vertex of a path. *)
Definition firstY (p : vg.Path) : option vg.Length := vg.Y <$> head (vg.vertices p).
Definition lastY (p : vg.Path) : option vg.Length := vg.Y <$> last (vg.vertices p).

(** The three points of the scenarios. *)
Definition scenario : list vg.Point :=
  [vg.mkPoint 0 1; vg.mkPoint 1 3; vg.mkPoint 2 2].

(** The same three points as data, a step over them with a line style and
    a fill colour, a canvas whose rectangle holds every point (clipping
    returns what it is given) and a plot whose transforms are the identity
    and whose y axis starts at -1. *)
Definition scenarioXYs : plotter.XYs :=
  [plotter.mkXY 0 1; plotter.mkXY 1 3; plotter.mkXY 2 2].

Definition thinLine : draw.LineStyle :=
  {| draw.Color := color.Black; draw.Width := 1; draw.Dashes := [];
     draw.DashOffs := 0 |}.

Definition scenarioStep (style : plotter.StepKind) : plotter.Step :=
  {| plotter.Step_XYs := scenarioXYs;
     plotter.StepStyle := style;
     plotter.LineStyle := Some thinLine;
     plotter.FillColor := Some color.Black |}.

Definition wholeCanvas : draw.Canvas :=
  {| draw.Min := vg.mkPoint (-10) (-10);
     draw.Max := vg.mkPoint 10 10;
     draw.ClipLinesXY := fun ps => [ps];
     draw.ClipPolygonY := fun poly => poly;
     draw.Center := vg.mkPoint 0 0 |}.

Definition identityPlot : plot.Plot :=
  {| plot.X := plot.mkAxis 0 2;
     plot.Y := plot.mkAxis (-1) 3;
     plot.Transforms := fun _ => (fun x => x, fun y => y) |}.

(** A filled step that dips below zero: the least y of its data range is
    -1, where the y axis of [identityPlot] starts. *)
Definition dippingStep : plotter.Step :=
  {| plotter.Step_XYs := [plotter.mkXY 0 (-1); plotter.mkXY 1 3; plotter.mkXY 2 2];
     plotter.StepStyle := plotter.PreStep;
     plotter.LineStyle := Some thinLine;
     plotter.FillColor := Some color.Black |}.

(** The same plot with its y axis starting at 0. *)
Definition zeroBasedPlot : plot.Plot :=
  {| plot.X := plot.mkAxis 0 2;
     plot.Y := plot.mkAxis 0 3;
     plot.Transforms := fun _ => (fun x => x, fun y => y) |}.

(** The stroke of a line with no step vertices: straight from point to point. *)
Definition polyline (l : list vg.Point) : option vg.Path :=
  match l with
  | [] => None
  | first :: rest => Some (vg.MoveComp first :: (vg.LineComp <$> rest))
  end.

(** Two lists of commands that differ at most in the polygons they fill:
    the same commands one for one, up to the points of a [FillPolygon]. *)
Definition sameButFillTop (old new : list draw.Cmd) : Prop :=
  Forall2 (fun a b => a = b ∨
             ∃ col poly poly', a = draw.FillPolygon col poly ∧
                               b = draw.FillPolygon col poly') old new.

(** An old step with both a shade colour and a line style. *)
Definition shadedLineStep : plotter_old.Step :=
  {| plotter_old.Step_XYs := scenarioXYs;
     plotter_old.Step_StepType := plotter_old.StepTypePost;
     plotter_old.LineStyle := Some thinLine;
     plotter_old.ShadeColor := Some color.Black |}.

(** A float above zero, a float below zero, and the y bounds of a range. *)
Definition aboveZero (x : float) : Prop := (0 <? x)%float = true.
Definition belowZero (x : float) : Prop := (x <? 0)%float = true.

Definition rangeYmin (r : float * float * float * float) : float := r.1.2.
Definition rangeYmax (r : float * float * float * float) : float := r.2.

(** A filled step whose points all lie below zero. *)
Definition sunkStep : plotter.Step :=
  {| plotter.Step_XYs := [plotter.mkXY 0 (-1); plotter.mkXY 1 (-3)];
     plotter.StepStyle := plotter.MidStep;
     plotter.LineStyle := None;
     plotter.FillColor := Some color.Black |}.

(** The vertices that follow the first point on the stroke of a line:
    for each pair of consecutive points the vertices of the step, then the
    point. *)
Definition stepsOver (style : plotter.StepKind) (l : list vg.Point)
    : list vg.Point :=
  concat ((fun pr => between style pr.1 pr.2 ++ [pr.2]) <$> consecutive l).

(** How many vertices a step puts between two points. *)
Definition stepVertices (style : plotter.StepKind) : nat :=
  if bool_decide (style = plotter.PreStep) then 1
  else if bool_decide (style = plotter.MidStep) then 2
  else if bool_decide (style = plotter.PostStep) then 1
  else 0.

(** Two points on one vertical or on one horizontal line, and a sequence of
    vertices every segment of which is vertical or horizontal. *)
Definition aligned (a b : vg.Point) : Prop :=
  vg.X a = vg.X b ∨ vg.Y a = vg.Y b.

Fixpoint rectilinear (vs : list vg.Point) : Prop :=
  match vs with
  | a :: (b :: _) as rest => aligned a b ∧ rectilinear rest
  | _ => True
  end.

(** One of the three step kinds. *)
Definition isStepKind (style : plotter.StepKind) : Prop :=
  style = plotter.PreStep ∨ style = plotter.MidStep ∨ style = plotter.PostStep.

(** A step with its line style taken away, and with its fill colour taken
    away. *)
Definition fillOnly (pts : plotter.Step) : plotter.Step :=
  {| plotter.Step_XYs := plotter.Step_XYs pts;
     plotter.StepStyle := plotter.StepStyle pts;
     plotter.LineStyle := None;
     plotter.FillColor := plotter.FillColor pts |}.

Definition lineOnly (pts : plotter.Step) : plotter.Step :=
  {| plotter.Step_XYs := plotter.Step_XYs pts;
     plotter.StepStyle := plotter.StepStyle pts;
     plotter.LineStyle := plotter.LineStyle pts;
     plotter.FillColor := None |}.

(** A canvas that clips the scenario into its first two points, an empty
    line and its last point. *)
Definition splittingCanvas : draw.Canvas :=
  {| draw.Min := vg.mkPoint (-10) (-10);
     draw.Max := vg.mkPoint 10 10;
     draw.ClipLinesXY := fun ps => [take 2 ps; []; drop 2 ps];
     draw.ClipPolygonY := fun poly => poly;
     draw.Center := vg.mkPoint 0 0 |}.

(** A float that is a number. *)
Definition notNaN (x : float) : Prop := math.IsNaN x = false.

(** The vertices of the stroke of a line, none for the empty line. *)
Definition strokeVertices (style : plotter.StepKind) (l : list vg.Point)
    : list vg.Point :=
  match l with
  | [] => []
  | first :: _ => first :: stepsOver style l
  end.

(** A filled step that crosses zero. *)
Definition crossingStep : plotter.Step :=
  {| plotter.Step_XYs := [plotter.mkXY 0 (-1); plotter.mkXY 1 3];
     plotter.StepStyle := plotter.PostStep;
     plotter.LineStyle := None;
     plotter.FillColor := Some color.Black |}.

(** The path of a stepped line, said outright: a move to the first point
    and, for each pair of consecutive points, the vertices of the step and
    the point; no path for the empty line. *)
Definition steppedPath (style : plotter.StepKind) (l : list vg.Point)
    : option vg.Path :=
  match l with
  | [] => None
  | first :: _ =>
      Some (vg.MoveComp first :: concat (strokeTo style <$> consecutive l))
  end.

(** Modelled from the spec: the canvas path primitive is executed as a
    stroke (the canvas itself is not among the sources).  What a stroke of
    a path draws are its segments: a move only places the pen, a line draws
    from the pen to its point, a close draws from the pen back to the point
    of the last move. *)
Fixpoint segmentsFrom (start pen : option vg.Point) (p : vg.Path)
    : list (vg.Point * vg.Point) :=
  match p with
  | [] => []
  | vg.MoveComp pt :: p' => segmentsFrom (Some pt) (Some pt) p'
  | vg.LineComp pt :: p' =>
      match pen with
      | Some from => (from, pt) :: segmentsFrom start (Some pt) p'
      | None => segmentsFrom (Some pt) (Some pt) p'
      end
  | vg.CloseComp :: p' =>
      match pen, start with
      | Some from, Some to => (from, to) :: segmentsFrom start (Some to) p'
      | _, _ => segmentsFrom start pen p'
      end
  end.

Definition segments (p : vg.Path) : list (vg.Point * vg.Point) :=
  segmentsFrom None None p.

(** * Slices *)
Section slices.
Context {A : Type}.
Implicit Types (x : A) (s : list A).

Lemma len_nil : go.len (@nil A) = 0.
Proof. reflexivity. Qed.

Lemma len_cons x s : go.len (x :: s) = go.len s + 1.
Proof. unfold go.len. simpl. lia. Qed.

Lemma len_nonneg s : 0 ≤ go.len s.
Proof. unfold go.len. lia. Qed.

Lemma len_zero s : go.len s = 0 ↔ s = [].
Proof.
  unfold go.len. destruct s as [|x s]; simpl; split; intros H;
    first [reflexivity | discriminate | lia].
Qed.

Lemma index_first x s : go.index (x :: s) 0 = Some x.
Proof. reflexivity. Qed.

Lemma slice_rest x s : go.slice_from (x :: s) 1 = Some s.
Proof.
  unfold go.slice_from. rewrite bool_decide_eq_true_2; [reflexivity|].
  rewrite len_cons. pose proof (len_nonneg s). lia.
Qed.

Lemma index_final s : s ≠ [] → go.index s (go.len s - 1) = last s.
Proof.
  intros Hs. unfold go.index, go.len.
  destruct s as [|x s]; [congruence|].
  rewrite bool_decide_eq_true_2 by (simpl; lia).
  rewrite last_lookup. f_equal. simpl. lia.
Qed.

Lemma last_is_Some s : s ≠ [] → is_Some (last s).
Proof.
  intros Hs. destruct (last s) eqn:E; [eauto|].
  apply last_None in E. congruence.
Qed.

End slices.

(** * Paths *)

Lemma vertices_app (p q : vg.Path) :
  vg.vertices (p ++ q) = vg.vertices p ++ vg.vertices q.
Proof. apply omap_app. Qed.

Lemma vertices_lines (l : list vg.Point) : vg.vertices (vg.LineComp <$> l) = l.
Proof.
  induction l as [|x l IH]; [reflexivity|].
  rewrite <- IH at 2. reflexivity.
Qed.

Lemma consecutive_cons (a b : vg.Point) (l : list vg.Point) :
  consecutive (a :: b :: l) = (a, b) :: consecutive (b :: l).
Proof. reflexivity. Qed.

Lemma consecutive_single (a : vg.Point) : consecutive [a] = [].
Proof. reflexivity. Qed.

(** * The stroke *)

Lemma strokeIter_app style prev pt p :
  plotter.strokeIter style prev pt p = p ++ strokeTo style (prev, pt).
Proof.
  unfold plotter.strokeIter, strokeTo, between, vg.Line. simpl.
  repeat case_bool_decide; simpl; rewrite <- ?app_assoc; reflexivity.
Qed.

Lemma strokeLoop_spec style rest : ∀ prev p,
  plotter.strokeLoop style prev p rest
  = p ++ concat (strokeTo style <$> consecutive (prev :: rest)).
Proof.
  induction rest as [|pt rest IH]; intros prev p.
  - simpl. rewrite app_nil_r. reflexivity.
  - cbn [plotter.strokeLoop]. rewrite IH, strokeIter_app, consecutive_cons.
    rewrite fmap_cons. cbn [concat]. rewrite <- app_assoc. reflexivity.
Qed.

Lemma strokePath_cons style first rest :
  plotter.strokePath style (first :: rest)
  = Some (vg.MoveComp first
            :: concat (strokeTo style <$> consecutive (first :: rest))).
Proof.
  unfold plotter.strokePath. rewrite index_first. cbn [mbind option_bind].
  rewrite slice_rest. cbn [mbind option_bind]. rewrite strokeLoop_spec.
  reflexivity.
Qed.

Lemma strokePath_nil style : plotter.strokePath style [] = None.
Proof. reflexivity. Qed.

(** Every point of a line is a vertex of its stroke, in the line's order. *)
Lemma stroke_visits style rest : ∀ prev,
  rest `sublist_of`
    vg.vertices (concat (strokeTo style <$> consecutive (prev :: rest))).
Proof.
  induction rest as [|pt rest IH]; intros prev.
  - apply sublist_nil_l.
  - rewrite consecutive_cons, fmap_cons. cbn [concat].
    rewrite vertices_app. unfold strokeTo at 1. rewrite vertices_lines.
    cbn [fst snd]. rewrite <- app_assoc.
    apply sublist_inserts_l. simpl. apply sublist_skip. apply IH.
Qed.

Lemma strokeLines_total style lines : is_Some (plotter.strokeLines style lines).
Proof.
  induction lines as [|l lines [cmds IH]]; [eexists; reflexivity|].
  cbn [plotter.strokeLines]. case_bool_decide as Hl; [eauto|].
  destruct l as [|first rest]; [rewrite len_nil in Hl; congruence|].
  rewrite strokePath_cons, IH. eexists; reflexivity.
Qed.

(** * The fill polygon *)

Lemma fillIter_app style n i prev pt pa :
  plotter.fillIter style n i prev pt pa
  = pa ++ plotter.fillIter style n i prev pt [].
Proof.
  unfold plotter.fillIter, vg.Line.
  repeat case_bool_decide; simpl; rewrite <- ?app_assoc, ?app_nil_r; reflexivity.
Qed.

Lemma fillLoop_app style n rest : ∀ i prev pa,
  plotter.fillLoop style n i prev pa rest
  = pa ++ plotter.fillLoop style n i prev [] rest.
Proof.
  induction rest as [|pt rest IH]; intros i prev pa; cbn [plotter.fillLoop].
  - rewrite app_nil_r. reflexivity.
  - rewrite IH, (IH _ _ (plotter.fillIter _ _ _ _ _ [])), fillIter_app.
    rewrite <- app_assoc. reflexivity.
Qed.

(** The shape of every fill path: the move to the baseline, the riser to
    the first point unless the step is a pre step, what the loop draws,
    the line down to the baseline, the close. *)
Lemma fillPath_cons style p0 rest pn minY :
  last (p0 :: rest) = Some pn →
  plotter.fillPath style (p0 :: rest) minY
  = Some (vg.MoveComp (vg.mkPoint (vg.X p0) minY)
            :: (if bool_decide (style ≠ plotter.PreStep)
                then [vg.LineComp p0] else [])
            ++ plotter.fillLoop style (go.len (p0 :: rest)) 0 p0 [] rest
            ++ [vg.LineComp (vg.mkPoint (vg.X pn) minY); vg.CloseComp]).
Proof.
  intros Hpn. unfold plotter.fillPath.
  rewrite index_first. cbn [mbind option_bind].
  rewrite slice_rest. cbn [mbind option_bind].
  rewrite index_final, Hpn by discriminate. cbn [mbind option_bind].
  rewrite fillLoop_app. unfold vg.Close, vg.Line, vg.Move.
  case_bool_decide; simpl; rewrite <- ?app_assoc; reflexivity.
Qed.

Lemma fillPath_nil style minY : plotter.fillPath style [] minY = None.
Proof. reflexivity. Qed.

Lemma fillPath_total style ps minY :
  ps ≠ [] → is_Some (plotter.fillPath style ps minY).
Proof.
  intros Hps. destruct ps as [|p0 rest]; [congruence|].
  destruct (last_is_Some (p0 :: rest)) as [pn Hpn]; [discriminate|].
  rewrite (fillPath_cons _ _ _ pn) by exact Hpn. eauto.
Qed.

Lemma postOutline_nil : postOutline [] = [].
Proof. reflexivity. Qed.

Lemma postOutline_single pr :
  postOutline [pr] = [vg.LineComp (vg.mkPoint (vg.X pr.2) (vg.Y pr.1))].
Proof. destruct pr. reflexivity. Qed.

Lemma postOutline_cons pr pr' pairs :
  postOutline (pr :: pr' :: pairs) = postTo pr ++ postOutline (pr' :: pairs).
Proof.
  unfold postOutline. rewrite last_cons_cons.
  replace (length (pr :: pr' :: pairs) - 1)%nat
    with (S (length (pr' :: pairs) - 1)) by (simpl; lia).
  rewrite firstn_cons, fmap_cons. cbn [concat].
  rewrite <- app_assoc. reflexivity.
Qed.

(** The loop of a post step draws the outline [postOutline], provided its
    counter is in step with the points that remain. *)
Lemma fillLoop_post n rest : ∀ i prev,
  i + go.len rest = n - 1 →
  plotter.fillLoop plotter.PostStep n i prev [] rest
  = postOutline (consecutive (prev :: rest)).
Proof.
  induction rest as [|pt rest IH]; intros i prev Hi; [reflexivity|].
  cbn [plotter.fillLoop]. rewrite fillLoop_app.
  rewrite len_cons in Hi.
  destruct rest as [|pt' rest].
  - rewrite len_nil in Hi. cbn [plotter.fillLoop]. rewrite app_nil_r.
    unfold plotter.fillIter, vg.Line. simpl.
    rewrite bool_decide_eq_false_2 by lia. reflexivity.
  - rewrite (IH (i + 1) pt) by lia.
    rewrite (consecutive_cons prev pt), (consecutive_cons pt pt').
    rewrite postOutline_cons. f_equal.
    unfold plotter.fillIter, vg.Line. simpl.
    rewrite bool_decide_eq_true_2; [reflexivity|].
    rewrite len_cons in Hi. pose proof (len_nonneg rest). lia.
Qed.

(** For a pre step and for a mid step the loop of the fill adds, pair by
    pair, what the loop of the stroke adds. *)
Lemma fillLoop_pre_mid style n rest : ∀ i prev,
  style = plotter.PreStep ∨ style = plotter.MidStep →
  plotter.fillLoop style n i prev [] rest
  = concat (strokeTo style <$> consecutive (prev :: rest)).
Proof.
  induction rest as [|pt rest IH]; intros i prev Hstyle; [reflexivity|].
  cbn [plotter.fillLoop]. rewrite fillLoop_app, IH by exact Hstyle.
  rewrite consecutive_cons, fmap_cons. cbn [concat]. f_equal.
  destruct Hstyle as [-> | ->]; reflexivity.
Qed.

(** For a value that is none of the three kinds the loops add nothing to
    the fill and only the points themselves to the stroke. *)
Lemma fillLoop_other style n rest : ∀ i prev pa,
  style ≠ plotter.PreStep → style ≠ plotter.MidStep →
  style ≠ plotter.PostStep →
  plotter.fillLoop style n i prev pa rest = pa.
Proof.
  induction rest as [|pt rest IH]; intros i prev pa H0 H1 H2; [reflexivity|].
  cbn [plotter.fillLoop]. rewrite IH by assumption.
  unfold plotter.fillIter. rewrite !bool_decide_eq_false_2 by assumption.
  reflexivity.
Qed.

Lemma strokeTo_other style rest : ∀ prev,
  style ≠ plotter.PreStep → style ≠ plotter.MidStep →
  style ≠ plotter.PostStep →
  concat (strokeTo style <$> consecutive (prev :: rest))
  = vg.LineComp <$> rest.
Proof.
  induction rest as [|pt rest IH]; intros prev H0 H1 H2; [reflexivity|].
  rewrite consecutive_cons, fmap_cons. cbn [concat].
  rewrite IH by assumption. unfold strokeTo, between.
  rewrite !bool_decide_eq_false_2 by assumption. reflexivity.
Qed.

(** * [Plot] as a whole *)

Lemma strokeLines_spec style lines :
  plotter.strokeLines style lines
  = Some (draw.Stroke <$> omap (plotter.strokePath style) lines).
Proof.
  induction lines as [|l lines IH]; [reflexivity|].
  cbn [plotter.strokeLines omap list_omap]. rewrite IH.
  case_bool_decide as Hl.
  - apply len_zero in Hl. subst l. reflexivity.
  - destruct l as [|first rest]; [rewrite len_nil in Hl; congruence|].
    rewrite strokePath_cons. reflexivity.
Qed.

(** [Plot] never panics, and draws the fill and then the stroke. *)
Lemma Plot_commands pts c plt :
  plotter.Plot pts c plt = Some (fillCmds pts c plt ++ strokeCmds pts c plt).
Proof.
  unfold plotter.Plot, fillCmds, strokeCmds, pointsOn, minYOn.
  destruct (plot.Transforms plt c) as [trX trY]. cbn [fst snd].
  set (ps := plotter.devicePoints trX trY (plotter.Step_XYs pts)).
  assert (Hfill :
    match plotter.FillColor pts with
    | Some col =>
        if bool_decide (0 < go.len ps)
        then pa ← plotter.fillPath (plotter.StepStyle pts) ps
                    (trY (plot.Min (plot.Y plt)));
             Some [draw.SetColor col; draw.Fill pa]
        else Some []
    | None => Some []
    end
    = Some match plotter.FillColor pts with
           | Some col =>
               match plotter.fillPath (plotter.StepStyle pts) ps
                       (trY (plot.Min (plot.Y plt))) with
               | Some pa => [draw.SetColor col; draw.Fill pa]
               | None => []
               end
           | None => []
           end).
  { destruct (plotter.FillColor pts) as [col|]; [|reflexivity].
    case_bool_decide as Hn.
    - destruct (fillPath_total (plotter.StepStyle pts) ps
                  (trY (plot.Min (plot.Y plt)))) as [pa Hpa].
      + intros Hps. rewrite Hps in Hn. unfold go.len in Hn. simpl in Hn. lia.
      + rewrite Hpa. reflexivity.
    - destruct ps; [reflexivity|]. rewrite len_cons in Hn.
      pose proof (len_nonneg ps). lia. }
  rewrite Hfill. clear Hfill. cbn [mbind option_bind].
  destruct (plotter.LineStyle pts) as [sty|]; [|reflexivity].
  case_bool_decide as Hl.
  - apply len_zero in Hl. rewrite Hl. reflexivity.
  - rewrite strokeLines_spec. cbn [mbind option_bind].
    destruct (draw.ClipLinesXY c ps); [rewrite len_nil in Hl; congruence|].
    reflexivity.
Qed.

Lemma fills_stroke_cmds (paths : list vg.Path) : fills (draw.Stroke <$> paths) = [].
Proof. induction paths as [|p paths IH]; [reflexivity|exact IH]. Qed.

Lemma strokes_stroke_cmds (paths : list vg.Path) :
  strokes (draw.Stroke <$> paths) = paths.
Proof.
  induction paths as [|p paths IH]; [reflexivity|].
  rewrite <- IH at 2. reflexivity.
Qed.

Lemma fills_strokeCmds pts c plt : fills (strokeCmds pts c plt) = [].
Proof.
  unfold strokeCmds. destruct (plotter.LineStyle pts); [|reflexivity].
  destruct (draw.ClipLinesXY c (pointsOn pts c plt)); [reflexivity|].
  cbn [fills omap list_omap]. apply fills_stroke_cmds.
Qed.

Lemma strokes_fillCmds pts c plt : strokes (fillCmds pts c plt) = [].
Proof.
  unfold fillCmds. destruct (plotter.FillColor pts); [|reflexivity].
  destruct (plotter.fillPath _ _ _); reflexivity.
Qed.

Lemma fills_app (a b : list draw.Cmd) : fills (a ++ b) = fills a ++ fills b.
Proof. apply omap_app. Qed.

Lemma strokes_app (a b : list draw.Cmd) : strokes (a ++ b) = strokes a ++ strokes b.
Proof. apply omap_app. Qed.

Lemma pointsOn_nil pts c plt :
  pointsOn pts c plt = [] ↔ plotter.Step_XYs pts = [].
Proof.
  unfold pointsOn, plotter.devicePoints.
  destruct (plotter.Step_XYs pts); simpl; split; congruence.
Qed.

(** With a fill colour and at least one point, [Plot] fills exactly one
    path: the fill path over the device points, on the baseline [minYOn]. *)
Lemma Plot_fills pts c plt col :
  plotter.FillColor pts = Some col → plotter.Step_XYs pts ≠ [] →
  ∃ cmds pa,
    plotter.Plot pts c plt = Some cmds ∧ fills cmds = [pa] ∧
    plotter.fillPath (plotter.StepStyle pts) (pointsOn pts c plt) (minYOn c plt)
    = Some pa.
Proof.
  intros Hcol Hne. rewrite Plot_commands.
  destruct (fillPath_total (plotter.StepStyle pts) (pointsOn pts c plt)
              (minYOn c plt)) as [pa Hpa].
  { rewrite pointsOn_nil. exact Hne. }
  exists (fillCmds pts c plt ++ strokeCmds pts c plt), pa.
  split; [reflexivity|]. split; [|exact Hpa].
  rewrite fills_app, fills_strokeCmds, app_nil_r.
  unfold fillCmds. rewrite Hcol, Hpa. reflexivity.
Qed.

Lemma strokes_strokeCmds pts c plt :
  strokes (strokeCmds pts c plt)
  = match plotter.LineStyle pts with
    | Some _ =>
        omap (plotter.strokePath (plotter.StepStyle pts))
          (draw.ClipLinesXY c (pointsOn pts c plt))
    | None => []
    end.
Proof.
  unfold strokeCmds. destruct (plotter.LineStyle pts) as [sty|]; [|reflexivity].
  destruct (draw.ClipLinesXY c (pointsOn pts c plt)) as [|l lines];
    [reflexivity|].
  cbn [strokes omap list_omap]. apply strokes_stroke_cmds.
Qed.

(** A fill path over a non-empty sequence opens and closes on its baseline. *)
Lemma fill_path_ends style ps minY pa :
  ps ≠ [] → plotter.fillPath style ps minY = Some pa →
  firstY pa = Some minY ∧ lastY pa = Some minY.
Proof.
  intros Hne Hpa. destruct ps as [|p0 rest]; [congruence|].
  destruct (last_is_Some (p0 :: rest)) as [pn Hpn]; [discriminate|].
  rewrite (fillPath_cons _ _ _ pn) in Hpa by exact Hpn.
  injection Hpa as <-. unfold firstY, lastY. split; [reflexivity|].
  rewrite app_assoc.
  change (vg.MoveComp ?q :: ?b ++ ?t) with ([vg.MoveComp q] ++ b ++ t).
  rewrite !vertices_app, !app_assoc.
  change (vg.vertices [vg.LineComp (vg.mkPoint (vg.X pn) minY); vg.CloseComp])
    with [vg.mkPoint (vg.X pn) minY].
  rewrite last_snoc. reflexivity.
Qed.

(** * The scenarios and the properties of the paths *)

(** C1, as amended: the fill path of a pre step has no riser to the
    first point: after the move to the baseline come, pair by pair, the
    vertex (prev.x, pt.y) and the point, then the line down to the baseline
    and the close.  For the device points [(0,1),(1,3),(2,2)] and the
    baseline 0 the path is (0,0), (0,3), (1,3), (1,2), (2,2), (2,0), close:
    (0,1) is not a vertex of it. *)
Theorem fill_pre_scenario :
  (∀ (p0 pn : vg.Point) (rest : list vg.Point) (minY : vg.Length),
     last (p0 :: rest) = Some pn →
     plotter.fillPath plotter.PreStep (p0 :: rest) minY
     = Some (vg.MoveComp (vg.mkPoint (vg.X p0) minY)
               :: concat (strokeTo plotter.PreStep <$> consecutive (p0 :: rest))
               ++ [vg.LineComp (vg.mkPoint (vg.X pn) minY); vg.CloseComp])) ∧
  plotter.fillPath plotter.PreStep scenario 0
  = Some [vg.MoveComp (vg.mkPoint 0 0); vg.LineComp (vg.mkPoint 0 3);
          vg.LineComp (vg.mkPoint 1 3); vg.LineComp (vg.mkPoint 1 2);
          vg.LineComp (vg.mkPoint 2 2); vg.LineComp (vg.mkPoint 2 0);
          vg.CloseComp].
Proof.
  split; [|reflexivity].
  intros p0 pn rest minY Hpn.
  rewrite (fillPath_cons _ _ _ pn) by exact Hpn.
  rewrite fillLoop_pre_mid by (left; reflexivity).
  rewrite bool_decide_eq_false_2 by (intros H; apply H; reflexivity).
  reflexivity.
Qed.

Lemma fill_pre_scenario_witness :
  last scenario = Some (vg.mkPoint 2 2) ∧
  plotter.fillPath plotter.PreStep scenario 0
  = Some (vg.MoveComp (vg.mkPoint 0 0)
            :: concat (strokeTo plotter.PreStep <$> consecutive scenario)
            ++ [vg.LineComp (vg.mkPoint 2 0); vg.CloseComp]).
Proof.
  split; [reflexivity|].
  exact (proj1 fill_pre_scenario (vg.mkPoint 0 1) (vg.mkPoint 2 2)
           [vg.mkPoint 1 3; vg.mkPoint 2 2] 0%float eq_refl).
Defined.

(** C1, as stated, fails: the fill path of the scenario is not the sequence
    with the vertex (0,1) after the first. *)
Lemma fill_pre_scenario_without_first_point :
  plotter.fillPath plotter.PreStep scenario 0
  ≠ Some [vg.MoveComp (vg.mkPoint 0 0); vg.LineComp (vg.mkPoint 0 1);
          vg.LineComp (vg.mkPoint 0 3); vg.LineComp (vg.mkPoint 1 3);
          vg.LineComp (vg.mkPoint 1 2); vg.LineComp (vg.mkPoint 2 2);
          vg.LineComp (vg.mkPoint 2 0); vg.CloseComp].
Proof.
  intros H. apply (f_equal (fmap (M := option) length)) in H.
  vm_compute in H. discriminate H.
Qed.

Lemma strokePath_stepped style l :
  plotter.strokePath style l = steppedPath style l.
Proof. destruct l as [|first rest]; [reflexivity | apply strokePath_cons]. Qed.

Lemma omap_strokePath_stepped style (lines : list (list vg.Point)) :
  omap (plotter.strokePath style) lines = omap (steppedPath style) lines.
Proof.
  induction lines as [|l lines IH]; [reflexivity|].
  cbn [omap list_omap]. rewrite IH, strokePath_stepped. reflexivity.
Qed.

(** C2: [Plot] strokes one path for every non-empty line that clipping
    returns, in the order of the lines, and for a clipped line of at least
    two points that path starts at its first point and adds, for each pair
    of consecutive points, the vertices of the step (one for a pre step,
    two at the mean of the two x for a mid step, one for a post step) and
    then the point; when clipping returns the line of device points whole,
    [Plot] strokes one path, which passes through every point in order; for
    the scenario and a post step the path is (0,1), (1,1), (1,3), (2,3),
    (2,2). *)
Theorem stroke_steps_between_points :
  (∀ style l, (2 ≤ length l)%nat →
     ∃ first, head l = Some first ∧
       plotter.strokePath style l
       = Some (vg.MoveComp first :: concat (strokeTo style <$> consecutive l)))
  ∧ (∀ prev pt,
       between plotter.PreStep prev pt = [vg.mkPoint (vg.X prev) (vg.Y pt)] ∧
       between plotter.MidStep prev pt
       = [vg.mkPoint ((vg.X prev + vg.X pt) / 2) (vg.Y prev);
          vg.mkPoint ((vg.X prev + vg.X pt) / 2) (vg.Y pt)] ∧
       between plotter.PostStep prev pt = [vg.mkPoint (vg.X pt) (vg.Y prev)])
  ∧ (∀ pts c plt sty,
       plotter.LineStyle pts = Some sty →
       plotter.Step_XYs pts ≠ [] →
       draw.ClipLinesXY c (pointsOn pts c plt) = [pointsOn pts c plt] →
       ∃ cmds path,
         plotter.Plot pts c plt = Some cmds ∧ strokes cmds = [path] ∧
         plotter.strokePath (plotter.StepStyle pts) (pointsOn pts c plt)
         = Some path ∧
         pointsOn pts c plt `sublist_of` vg.vertices path)
  ∧ plotter.strokePath plotter.PostStep scenario
    = Some [vg.MoveComp (vg.mkPoint 0 1); vg.LineComp (vg.mkPoint 1 1);
            vg.LineComp (vg.mkPoint 1 3); vg.LineComp (vg.mkPoint 2 3);
            vg.LineComp (vg.mkPoint 2 2)]
  ∧ (∀ pts c plt sty,
       plotter.LineStyle pts = Some sty →
       ∃ cmds,
         plotter.Plot pts c plt = Some cmds ∧
         strokes cmds
         = omap (steppedPath (plotter.StepStyle pts))
             (draw.ClipLinesXY c (pointsOn pts c plt)) ∧
         ∀ l first,
           l ∈ draw.ClipLinesXY c (pointsOn pts c plt) →
           (2 ≤ length l)%nat → head l = Some first →
           vg.MoveComp first
             :: concat (strokeTo (plotter.StepStyle pts) <$> consecutive l)
           ∈ strokes cmds).
Proof.
  split; [|split; [|split; [|split]]].
  - intros style l Hl. destruct l as [|first rest]; [simpl in Hl; lia|].
    exists first. split; [reflexivity|]. apply strokePath_cons.
  - intros prev pt. repeat split; reflexivity.
  - intros pts c plt sty Hsty Hne Hclip.
    destruct (pointsOn pts c plt) as [|first rest] eqn:Hps.
    { apply pointsOn_nil in Hps. congruence. }
    eexists _, _. split; [apply Plot_commands|].
    rewrite strokes_app, strokes_fillCmds, strokes_strokeCmds.
    rewrite Hsty, Hps, Hclip. cbn [omap list_omap].
    rewrite strokePath_cons. cbn [app].
    split; [reflexivity|]. split; [reflexivity|].
    cbn [vg.vertices omap list_omap]. apply sublist_skip, stroke_visits.
  - reflexivity.
  - intros pts c plt sty Hsty.
    eexists. split; [apply Plot_commands|].
    rewrite strokes_app, strokes_fillCmds, strokes_strokeCmds, Hsty.
    cbn [app]. rewrite omap_strokePath_stepped. split; [reflexivity|].
    intros l first Hl _ Hfirst.
    apply list_elem_of_omap. exists l. split; [exact Hl|].
    destruct l as [|first' rest]; [discriminate Hfirst|].
    injection Hfirst as ->. reflexivity.
Qed.

Lemma stroke_steps_between_points_witness :
  (2 ≤ length scenario)%nat ∧
  plotter.LineStyle (scenarioStep plotter.MidStep) = Some thinLine ∧
  plotter.Step_XYs (scenarioStep plotter.MidStep) ≠ [] ∧
  draw.ClipLinesXY wholeCanvas
    (pointsOn (scenarioStep plotter.MidStep) wholeCanvas identityPlot)
  = [pointsOn (scenarioStep plotter.MidStep) wholeCanvas identityPlot] ∧
  (∃ first, head scenario = Some first ∧
     plotter.strokePath plotter.MidStep scenario
     = Some (vg.MoveComp first
               :: concat (strokeTo plotter.MidStep <$> consecutive scenario))) ∧
  (∃ cmds path,
     plotter.Plot (scenarioStep plotter.MidStep) wholeCanvas identityPlot
     = Some cmds ∧ strokes cmds = [path] ∧
     plotter.strokePath plotter.MidStep
       (pointsOn (scenarioStep plotter.MidStep) wholeCanvas identityPlot)
     = Some path ∧
     pointsOn (scenarioStep plotter.MidStep) wholeCanvas identityPlot
       `sublist_of` vg.vertices path) ∧
  (∃ cmds,
     plotter.Plot (scenarioStep plotter.PostStep) splittingCanvas identityPlot
     = Some cmds ∧
     strokes cmds
     = [[vg.MoveComp (vg.mkPoint 0 1); vg.LineComp (vg.mkPoint 1 1);
         vg.LineComp (vg.mkPoint 1 3)];
        [vg.MoveComp (vg.mkPoint 2 2)]] ∧
     [vg.MoveComp (vg.mkPoint 0 1); vg.LineComp (vg.mkPoint 1 1);
      vg.LineComp (vg.mkPoint 1 3)] ∈ strokes cmds).
Proof.
  destruct stroke_steps_between_points as (Hpath & _ & Hwhole & _ & Hevery).
  split; [simpl; lia|]. split; [reflexivity|]. split; [discriminate|].
  split; [reflexivity|]. split; [|split].
  - apply Hpath. simpl. lia.
  - apply (Hwhole (scenarioStep plotter.MidStep) wholeCanvas identityPlot thinLine);
      [reflexivity | discriminate | reflexivity].
  - destruct (Hevery (scenarioStep plotter.PostStep) splittingCanvas identityPlot
                thinLine eq_refl) as (cmds & HP & Hs & Hin).
    exists cmds. split; [exact HP|]. split; [exact Hs|].
    apply (Hin [vg.mkPoint 0 1; vg.mkPoint 1 3] (vg.mkPoint 0 1));
      [left | simpl; lia | reflexivity].
Defined.

(** C3: in the fill path of a post step every pair of consecutive points
    adds the horizontal segment to (pt.x, prev.y) and the vertical segment
    to pt, except the final pair, which adds the horizontal segment only;
    the path then goes down to the baseline. *)
Theorem fill_post_omits_final_riser (p0 pn : vg.Point) (rest : list vg.Point)
    (minY : vg.Length) :
  last (p0 :: rest) = Some pn →
  plotter.fillPath plotter.PostStep (p0 :: rest) minY
  = Some (vg.MoveComp (vg.mkPoint (vg.X p0) minY) :: vg.LineComp p0
            :: concat (postTo <$> take (length (consecutive (p0 :: rest)) - 1)
                                    (consecutive (p0 :: rest)))
            ++ match last (consecutive (p0 :: rest)) with
               | Some (prev, pt) => [vg.LineComp (vg.mkPoint (vg.X pt) (vg.Y prev))]
               | None => []
               end
            ++ [vg.LineComp (vg.mkPoint (vg.X pn) minY); vg.CloseComp]).
Proof.
  intros Hpn. rewrite (fillPath_cons _ _ _ pn) by exact Hpn.
  rewrite fillLoop_post by (rewrite len_cons; lia).
  unfold postOutline. rewrite <- app_assoc. reflexivity.
Qed.

Lemma fill_post_omits_final_riser_witness :
  last scenario = Some (vg.mkPoint 2 2) ∧
  plotter.fillPath plotter.PostStep scenario 0
  = Some [vg.MoveComp (vg.mkPoint 0 0); vg.LineComp (vg.mkPoint 0 1);
          vg.LineComp (vg.mkPoint 1 1); vg.LineComp (vg.mkPoint 1 3);
          vg.LineComp (vg.mkPoint 2 3);
          vg.LineComp (vg.mkPoint 2 0); vg.CloseComp].
Proof.
  split; [reflexivity|].
  exact (fill_post_omits_final_riser (vg.mkPoint 0 1) (vg.mkPoint 2 2)
           [vg.mkPoint 1 3; vg.mkPoint 2 2] 0 eq_refl).
Defined.

(** C4: for every non-empty point sequence and every step kind, also a
    value that is none of the three, the fill path starts with a move to
    (points[0].x, minY), its last vertex is (points[n-1].x, minY), and it
    ends with a close. *)
Theorem fill_opens_and_closes_on_baseline (style : plotter.StepKind)
    (ps : list vg.Point) (minY : vg.Length) :
  ps ≠ [] →
  ∃ p0 pn pa,
    head ps = Some p0 ∧ last ps = Some pn ∧
    plotter.fillPath style ps minY = Some pa ∧
    head pa = Some (vg.MoveComp (vg.mkPoint (vg.X p0) minY)) ∧
    last (vg.vertices pa) = Some (vg.mkPoint (vg.X pn) minY) ∧
    firstY pa = Some minY ∧ lastY pa = Some minY ∧
    last pa = Some vg.CloseComp.
Proof.
  intros Hne. destruct ps as [|p0 rest]; [congruence|].
  destruct (last_is_Some (p0 :: rest)) as [pn Hpn]; [discriminate|].
  exists p0, pn. eexists. split; [reflexivity|]. split; [exact Hpn|].
  split; [apply fillPath_cons, Hpn|].
  set (body := (if bool_decide (style ≠ plotter.PreStep)
                then [vg.LineComp p0] else [])
               ++ plotter.fillLoop style (go.len (p0 :: rest)) 0 p0 [] rest).
  assert (Hverts :
    vg.vertices (vg.MoveComp (vg.mkPoint (vg.X p0) minY)
      :: (if bool_decide (style ≠ plotter.PreStep) then [vg.LineComp p0] else [])
      ++ plotter.fillLoop style (go.len (p0 :: rest)) 0 p0 [] rest
      ++ [vg.LineComp (vg.mkPoint (vg.X pn) minY); vg.CloseComp])
    = (vg.mkPoint (vg.X p0) minY :: vg.vertices body)
      ++ [vg.mkPoint (vg.X pn) minY]).
  { rewrite app_assoc. fold body.
    change (vg.MoveComp ?q :: body ++ ?t) with ([vg.MoveComp q] ++ body ++ t).
    rewrite !vertices_app. reflexivity. }
  split; [reflexivity|].
  unfold firstY, lastY. rewrite Hverts, last_snoc.
  split; [reflexivity|]. split; [reflexivity|]. split; [reflexivity|].
  rewrite app_assoc. fold body.
  change [vg.LineComp (vg.mkPoint (vg.X pn) minY); vg.CloseComp]
    with ([vg.LineComp (vg.mkPoint (vg.X pn) minY)] ++ [vg.CloseComp]).
  rewrite app_assoc, app_comm_cons. apply last_snoc.
Qed.

Lemma fill_opens_and_closes_on_baseline_witness :
  scenario ≠ [] ∧
  ∃ p0 pn pa,
    head scenario = Some p0 ∧ last scenario = Some pn ∧
    plotter.fillPath plotter.MidStep scenario 0 = Some pa ∧
    head pa = Some (vg.MoveComp (vg.mkPoint (vg.X p0) 0)) ∧
    last (vg.vertices pa) = Some (vg.mkPoint (vg.X pn) 0) ∧
    firstY pa = Some 0%float ∧ lastY pa = Some 0%float ∧
    last pa = Some vg.CloseComp.
Proof.
  split; [discriminate|].
  apply (fill_opens_and_closes_on_baseline plotter.MidStep scenario 0).
  discriminate.
Defined.

Lemma segments_skip_single_points style (lines : list (list vg.Point)) :
  concat (segments <$> omap (plotter.strokePath style) lines)
  = concat (segments <$> omap (plotter.strokePath style)
                           (filter (fun l => length l ≠ 1%nat) lines)).
Proof.
  induction lines as [|l lines IH]; [reflexivity|].
  rewrite filter_cons. case_decide as Hl.
  - cbn [omap list_omap].
    destruct (plotter.strokePath style l) as [p|]; [|exact IH].
    rewrite !fmap_cons. cbn [concat]. rewrite IH. reflexivity.
  - destruct l as [|p [|q l]]; [simpl in Hl; lia| |simpl in Hl; lia].
    cbn [omap list_omap]. rewrite strokePath_cons. exact IH.
Qed.

(** C8: a clipped line of exactly one point produces no visible stroke and
    adds nothing to what is stroked.  The loop over [l[1:]] runs no
    iteration for it: the path built for it is the lone move to its point,
    which has no segment, and the segments that [Plot] strokes are those of
    the clipped lines with the lines of one point left out, whatever the
    canvas and the step kind. *)
Theorem single_point_line_draws_nothing :
  (∀ (style : plotter.StepKind) (l : list vg.Point),
     length l = 1%nat →
     ∃ p pa, l = [p] ∧ plotter.strokePath style l = Some pa ∧
             pa = [vg.MoveComp p] ∧ segments pa = []) ∧
  (∀ (pts : plotter.Step) (c : draw.Canvas) (plt : plot.Plot)
     (sty : draw.LineStyle),
     plotter.LineStyle pts = Some sty →
     ∃ cmds,
       plotter.Plot pts c plt = Some cmds ∧
       concat (segments <$> strokes cmds)
       = concat (segments <$>
                   omap (plotter.strokePath (plotter.StepStyle pts))
                     (filter (fun l => length l ≠ 1%nat)
                        (draw.ClipLinesXY c (pointsOn pts c plt))))).
Proof.
  split.
  - intros style l Hl. destruct l as [|p [|q l]]; try discriminate Hl.
    exists p, [vg.MoveComp p]. repeat split; reflexivity.
  - intros pts c plt sty Hsty. eexists. split; [apply Plot_commands|].
    rewrite strokes_app, strokes_fillCmds, strokes_strokeCmds, Hsty.
    cbn [app]. apply segments_skip_single_points.
Qed.

Lemma single_point_line_draws_nothing_witness :
  draw.ClipLinesXY splittingCanvas
    (pointsOn (scenarioStep plotter.PostStep) splittingCanvas identityPlot)
  = [[vg.mkPoint 0 1; vg.mkPoint 1 3]; []; [vg.mkPoint 2 2]] ∧
  plotter.strokePath plotter.PostStep [vg.mkPoint 2 2]
  = Some [vg.MoveComp (vg.mkPoint 2 2)] ∧
  ∃ cmds,
    plotter.Plot (scenarioStep plotter.PostStep) splittingCanvas identityPlot
    = Some cmds ∧
    concat (segments <$> strokes cmds)
    = [(vg.mkPoint 0 1, vg.mkPoint 1 1); (vg.mkPoint 1 1, vg.mkPoint 1 3)].
Proof.
  destruct single_point_line_draws_nothing as [Hone Hplot].
  split; [reflexivity|]. split.
  - destruct (Hone plotter.PostStep [vg.mkPoint 2 2] eq_refl)
      as (p & pa & Hp & Hpa & -> & _).
    injection Hp as <-. exact Hpa.
  - exact (Hplot (scenarioStep plotter.PostStep) splittingCanvas identityPlot
             thinLine eq_refl).
Defined.

Lemma strokePath_other style l :
  style ≠ plotter.PreStep → style ≠ plotter.MidStep →
  style ≠ plotter.PostStep →
  plotter.strokePath style l = polyline l.
Proof.
  intros H0 H1 H2. destruct l as [|first rest]; [reflexivity|].
  rewrite strokePath_cons, strokeTo_other by assumption. reflexivity.
Qed.

Lemma fills_fillCmds pts c plt :
  fills (fillCmds pts c plt)
  = match plotter.FillColor pts with
    | Some _ =>
        option_list (plotter.fillPath (plotter.StepStyle pts)
                       (pointsOn pts c plt) (minYOn c plt))
    | None => []
    end.
Proof.
  unfold fillCmds. destruct (plotter.FillColor pts); [|reflexivity].
  destruct (plotter.fillPath _ _ _); reflexivity.
Qed.

(** C10: for a [StepStyle] that is none of the three kinds [Plot] does not
    panic; it strokes every non-empty clipped line straight from point to
    point, and the path it fills is the baseline start, the first point,
    the baseline end and the close: no other data point is on it. *)
Theorem plot_of_undefined_step_kind (pts : plotter.Step) (c : draw.Canvas)
    (plt : plot.Plot) :
  plotter.StepStyle pts ≠ plotter.PreStep →
  plotter.StepStyle pts ≠ plotter.MidStep →
  plotter.StepStyle pts ≠ plotter.PostStep →
  ∃ cmds,
    plotter.Plot pts c plt = Some cmds ∧
    strokes cmds
    = match plotter.LineStyle pts with
      | Some _ => omap polyline (draw.ClipLinesXY c (pointsOn pts c plt))
      | None => []
      end ∧
    fills cmds
    = match plotter.FillColor pts, head (pointsOn pts c plt),
            last (pointsOn pts c plt) with
      | Some _, Some p0, Some pn =>
          [[vg.MoveComp (vg.mkPoint (vg.X p0) (minYOn c plt));
            vg.LineComp p0;
            vg.LineComp (vg.mkPoint (vg.X pn) (minYOn c plt));
            vg.CloseComp]]
      | _, _, _ => []
      end.
Proof.
  intros H0 H1 H2. eexists. split; [apply Plot_commands|]. split.
  - rewrite strokes_app, strokes_fillCmds, strokes_strokeCmds. cbn [app].
    destruct (plotter.LineStyle pts) as [sty|]; [|reflexivity].
    induction (draw.ClipLinesXY c (pointsOn pts c plt)) as [|l lines IH];
      [reflexivity|].
    cbn [omap list_omap]. rewrite IH, strokePath_other by assumption.
    reflexivity.
  - rewrite fills_app, fills_strokeCmds, app_nil_r, fills_fillCmds.
    destruct (plotter.FillColor pts) as [col|]; [|reflexivity].
    destruct (pointsOn pts c plt) as [|p0 rest]; [reflexivity|].
    destruct (last_is_Some (p0 :: rest)) as [pn Hpn]; [discriminate|].
    rewrite (fillPath_cons _ _ _ pn) by exact Hpn.
    rewrite fillLoop_other by assumption.
    rewrite bool_decide_eq_true_2 by assumption.
    cbn [head]. rewrite Hpn. reflexivity.
Qed.

Lemma plot_of_undefined_step_kind_witness :
  plotter.Plot (scenarioStep 7) wholeCanvas identityPlot
  = Some [draw.SetColor color.Black;
          draw.Fill [vg.MoveComp (vg.mkPoint 0 (-1)); vg.LineComp (vg.mkPoint 0 1);
                     vg.LineComp (vg.mkPoint 2 (-1)); vg.CloseComp];
          draw.SetLineStyle thinLine;
          draw.Stroke [vg.MoveComp (vg.mkPoint 0 1); vg.LineComp (vg.mkPoint 1 3);
                       vg.LineComp (vg.mkPoint 2 2)]] ∧
  ∃ cmds,
    plotter.Plot (scenarioStep 7) wholeCanvas identityPlot = Some cmds ∧
    strokes cmds
    = [[vg.MoveComp (vg.mkPoint 0 1); vg.LineComp (vg.mkPoint 1 3);
        vg.LineComp (vg.mkPoint 2 2)]] ∧
    fills cmds
    = [[vg.MoveComp (vg.mkPoint 0 (-1)); vg.LineComp (vg.mkPoint 0 1);
        vg.LineComp (vg.mkPoint 2 (-1)); vg.CloseComp]].
Proof.
  split; [reflexivity|].
  apply (plot_of_undefined_step_kind (scenarioStep 7) wholeCanvas identityPlot);
    discriminate.
Defined.

(** C5, as amended: when a fill colour is set and there is a point, the
    baseline on which the fill path opens and closes is where the plot's
    transform puts the minimum of the y axis, [trY(plt.Y.Min)]; it is
    where the data value zero is put when that minimum is zero. *)
Theorem fill_baseline_is_axis_minimum (pts : plotter.Step) (c : draw.Canvas)
    (plt : plot.Plot) (col : color.Color) :
  plotter.FillColor pts = Some col → plotter.Step_XYs pts ≠ [] →
  ∃ cmds pa,
    plotter.Plot pts c plt = Some cmds ∧ fills cmds = [pa] ∧
    firstY pa = Some (minYOn c plt) ∧ lastY pa = Some (minYOn c plt) ∧
    (plot.Min (plot.Y plt) = 0%float →
     firstY pa = Some (zeroOn c plt) ∧ lastY pa = Some (zeroOn c plt)).
Proof.
  intros Hcol Hne.
  destruct (Plot_fills pts c plt col Hcol Hne) as (cmds & pa & HP & Hf & Hpa).
  exists cmds, pa. split; [exact HP|]. split; [exact Hf|].
  destruct (fill_path_ends (plotter.StepStyle pts) (pointsOn pts c plt)
              (minYOn c plt) pa) as [H1 H2].
  { rewrite pointsOn_nil. exact Hne. }
  { exact Hpa. }
  split; [exact H1|]. split; [exact H2|].
  intros Hzero. unfold zeroOn. unfold minYOn in H1, H2.
  rewrite Hzero in H1, H2. split; assumption.
Qed.

Lemma fill_baseline_is_axis_minimum_witness :
  plotter.FillColor dippingStep = Some color.Black ∧
  plotter.Step_XYs dippingStep ≠ [] ∧
  plot.Min (plot.Y zeroBasedPlot) = 0%float ∧
  (∃ cmds pa,
     plotter.Plot dippingStep wholeCanvas identityPlot = Some cmds ∧
     fills cmds = [pa] ∧
     firstY pa = Some (-1)%float ∧ lastY pa = Some (-1)%float) ∧
  (∃ cmds pa,
     plotter.Plot (scenarioStep plotter.PreStep) wholeCanvas zeroBasedPlot
     = Some cmds ∧ fills cmds = [pa] ∧
     firstY pa = Some (zeroOn wholeCanvas zeroBasedPlot) ∧
     lastY pa = Some (zeroOn wholeCanvas zeroBasedPlot)).
Proof.
  split; [reflexivity|]. split; [discriminate|]. split; [reflexivity|]. split.
  - destruct (fill_baseline_is_axis_minimum dippingStep
                wholeCanvas identityPlot color.Black eq_refl)
      as (cmds & pa & HP & Hf & H1 & H2 & _); [discriminate|].
    exists cmds, pa. repeat split; assumption.
  - destruct (fill_baseline_is_axis_minimum (scenarioStep plotter.PreStep)
                wholeCanvas zeroBasedPlot color.Black eq_refl)
      as (cmds & pa & HP & Hf & _ & _ & Hzero); [discriminate|].
    destruct (Hzero eq_refl) as [H1 H2].
    exists cmds, pa. repeat split; assumption.
Defined.

(** C5, as stated, fails: for the points [(0,-1),(1,3),(2,2)] on a plot
    whose y axis starts at -1, the least y of their data range, the fill
    opens and closes at y = -1, not where the value zero is put. *)
Lemma fill_baseline_not_at_zero :
  plotter.DataRange dippingStep = (0, 2, -1, 3)%float ∧
  plotter.Plot dippingStep wholeCanvas identityPlot
  = Some [draw.SetColor color.Black;
          draw.Fill [vg.MoveComp (vg.mkPoint 0 (-1)); vg.LineComp (vg.mkPoint 0 3);
                     vg.LineComp (vg.mkPoint 1 3); vg.LineComp (vg.mkPoint 1 2);
                     vg.LineComp (vg.mkPoint 2 2); vg.LineComp (vg.mkPoint 2 (-1));
                     vg.CloseComp];
          draw.SetLineStyle thinLine;
          draw.Stroke [vg.MoveComp (vg.mkPoint 0 (-1)); vg.LineComp (vg.mkPoint 0 3);
                       vg.LineComp (vg.mkPoint 1 3); vg.LineComp (vg.mkPoint 1 2);
                       vg.LineComp (vg.mkPoint 2 2)]] ∧
  ¬ (∀ (pts : plotter.Step) (c : draw.Canvas) (plt : plot.Plot)
       (col : color.Color) (cmds : list draw.Cmd) (pa : vg.Path),
       plotter.FillColor pts = Some col →
       plotter.Plot pts c plt = Some cmds → fills cmds = [pa] →
       firstY pa = Some (zeroOn c plt) ∧ lastY pa = Some (zeroOn c plt)).
Proof.
  split; [reflexivity|]. split; [reflexivity|]. intros H.
  destruct (H dippingStep wholeCanvas identityPlot
              color.Black _ _ eq_refl eq_refl eq_refl) as [H0 _].
  apply (f_equal (fun oy => match oy with
                             | Some y => (y <? 0)%float
                             | None => false
                             end)) in H0.
  vm_compute in H0. discriminate H0.
Qed.

(** * The earlier version against the current one *)

Lemma fillPath_renamed ty ps minY :
  plotter_old.fillPath ty ps minY = plotter.fillPath ty ps minY.
Proof. reflexivity. Qed.

Lemma strokeLines_renamed ty lines :
  plotter_old.strokeLines ty lines = plotter.strokeLines ty lines.
Proof. reflexivity. Qed.

Lemma Plot_renamed s c plt :
  plotter_old.Plot s c plt = plotter.Plot (renamed s) c plt.
Proof.
  unfold plotter_old.Plot, plotter.Plot, renamed. cbn [plotter.Step_XYs
    plotter.StepStyle plotter.LineStyle plotter.FillColor].
  destruct (plot.Transforms plt c) as [trX trY]. reflexivity.
Qed.

Lemma DataRange_renamed s :
  plotter_old.DataRange s = plotter.DataRange (renamed s).
Proof. reflexivity. Qed.

(** C7, as amended: with the fields renamed, the two versions draw the same
    commands in [Plot] and return the same [DataRange]; their thumbnails
    are the same when the shade colour or the line style is nil; when both
    are set, the old version fills the whole box and draws no line, and the
    new one fills the box up to the middle and also draws the line
    through the centre. *)
Theorem renamed_step_draws_the_same (s : plotter_old.Step) (c : draw.Canvas)
    (plt : plot.Plot) :
  plotter_old.Plot s c plt = plotter.Plot (renamed s) c plt ∧
  plotter_old.DataRange s = plotter.DataRange (renamed s) ∧
  (plotter_old.ShadeColor s = None ∨ plotter_old.LineStyle s = None →
   plotter_old.Thumbnail s c = plotter.Thumbnail (renamed s) c) ∧
  (∀ col sty,
     plotter_old.ShadeColor s = Some col →
     plotter_old.LineStyle s = Some sty →
     plotter_old.Thumbnail s c
     = [draw.FillPolygon col
          (draw.ClipPolygonY c
             [vg.mkPoint (vg.X (draw.Min c)) (vg.Y (draw.Min c));
              vg.mkPoint (vg.X (draw.Min c)) (vg.Y (draw.Max c));
              vg.mkPoint (vg.X (draw.Max c)) (vg.Y (draw.Max c));
              vg.mkPoint (vg.X (draw.Max c)) (vg.Y (draw.Min c))])] ∧
     plotter.Thumbnail (renamed s) c
     = [draw.FillPolygon col
          (draw.ClipPolygonY c
             [vg.mkPoint (vg.X (draw.Min c)) (vg.Y (draw.Min c));
              vg.mkPoint (vg.X (draw.Min c))
                ((vg.Y (draw.Min c) + vg.Y (draw.Max c)) / 2);
              vg.mkPoint (vg.X (draw.Max c))
                ((vg.Y (draw.Min c) + vg.Y (draw.Max c)) / 2);
              vg.mkPoint (vg.X (draw.Max c)) (vg.Y (draw.Min c))]);
        draw.StrokeLine2 sty (vg.X (draw.Min c)) (vg.Y (draw.Center c))
          (vg.X (draw.Max c)) (vg.Y (draw.Center c))]).
Proof.
  split; [apply Plot_renamed|]. split; [apply DataRange_renamed|].
  unfold plotter_old.Thumbnail, plotter.Thumbnail, renamed.
  cbn [plotter.LineStyle plotter.FillColor]. split.
  - intros [Hc | Hl].
    + rewrite Hc. destruct (plotter_old.LineStyle s); reflexivity.
    + rewrite Hl. destruct (plotter_old.ShadeColor s); reflexivity.
  - intros col sty Hc Hl. rewrite Hc, Hl. split; reflexivity.
Qed.

Lemma renamed_step_draws_the_same_witness :
  plotter_old.ShadeColor shadedLineStep = Some color.Black ∧
  plotter_old.LineStyle shadedLineStep = Some thinLine ∧
  plotter_old.Plot shadedLineStep wholeCanvas identityPlot
  = plotter.Plot (renamed shadedLineStep) wholeCanvas identityPlot ∧
  plotter_old.Thumbnail shadedLineStep wholeCanvas
  = [draw.FillPolygon color.Black
       [vg.mkPoint (-10) (-10); vg.mkPoint (-10) 10;
        vg.mkPoint 10 10; vg.mkPoint 10 (-10)]] ∧
  plotter.Thumbnail (renamed shadedLineStep) wholeCanvas
  = [draw.FillPolygon color.Black
       [vg.mkPoint (-10) (-10); vg.mkPoint (-10) 0;
        vg.mkPoint 10 0; vg.mkPoint 10 (-10)];
     draw.StrokeLine2 thinLine (-10) 0 10 0].
Proof.
  destruct (renamed_step_draws_the_same shadedLineStep wholeCanvas identityPlot)
    as (HP & _ & _ & HT).
  split; [reflexivity|]. split; [reflexivity|]. split; [exact HP|].
  exact (HT color.Black thinLine eq_refl eq_refl).
Defined.

(** C7, as stated, fails: for a step with both a shade colour and a line
    style the new thumbnail has a command the old one has not, the stroke
    of the line, so the two differ in more than the polygon filled. *)
Lemma thumbnail_gains_a_line :
  ¬ (∀ (s : plotter_old.Step) (c : draw.Canvas),
       sameButFillTop (plotter_old.Thumbnail s c)
         (plotter.Thumbnail (renamed s) c)).
Proof.
  intros H. specialize (H shadedLineStep wholeCanvas).
  apply Forall2_length in H. vm_compute in H. discriminate H.
Qed.

(** * Construction and rendering *)

Lemma CopyXYs_fails data :
  (∃ err, plotter.CopyXYs data = inr err) ↔ ∃ p, p ∈ data ∧ plotter.malformed p = true.
Proof.
  induction data as [|p data IH]; simpl.
  - split; [intros [err H]; discriminate H | intros (p & Hp & _)].
    apply elem_of_nil in Hp. destruct Hp.
  - destruct (plotter.malformed p) eqn:Hbad.
    + split; [intros _; exists p; split; [left|exact Hbad] | intros _; eauto].
    + destruct (plotter.CopyXYs data) as [cpy|err].
      * split; [intros [err H]; discriminate H|].
        intros (q & Hq & Hqbad). apply elem_of_cons in Hq as [-> | Hq].
        -- congruence.
        -- destruct IH as [_ IH].
           destruct IH as [err Herr]; [eauto | discriminate Herr].
      * split; [|intros _; eauto].
        intros _. destruct IH as [IH _].
        destruct IH as (q & Hq & Hqbad); [eauto|].
        exists q. split; [right; exact Hq | exact Hqbad].
Qed.

Lemma CopyXYs_copies data cpy : plotter.CopyXYs data = inl cpy → cpy = data.
Proof.
  revert cpy. induction data as [|p data IH]; intros cpy; simpl.
  - congruence.
  - destruct (plotter.malformed p); [discriminate|].
    destruct (plotter.CopyXYs data) as [cpy'|]; [|discriminate].
    intros [= <-]. f_equal. apply IH. reflexivity.
Qed.

(** C9: [NewStep] returns an error exactly when [CopyXYs] does, that is
    when one of the caller's points is malformed, and otherwise the step
    over the copied points, before anything is drawn; [Plot] never panics,
    whatever the step, the canvas and the plot: it returns its commands,
    with nothing filled for an empty sequence and nothing stroked when
    clipping leaves no line.  [DataRange] and [Thumbnail] index nothing and
    are total functions. *)
Theorem construction_may_fail_rendering_never
    (DefaultLineStyle : draw.LineStyle) (xys : plotter.XYer) :
  (∀ err, plotter.NewStep DefaultLineStyle xys = inr err
          ↔ plotter.CopyXYs xys = inr err) ∧
  ((∃ err, plotter.NewStep DefaultLineStyle xys = inr err)
   ↔ ∃ p, p ∈ xys ∧ plotter.malformed p = true) ∧
  (∀ s, plotter.NewStep DefaultLineStyle xys = inl s →
        s = {| plotter.Step_XYs := xys;
               plotter.StepStyle := plotter.PreStep;
               plotter.LineStyle := Some DefaultLineStyle;
               plotter.FillColor := None |}) ∧
  (∀ pts c plt,
     ∃ cmds, plotter.Plot pts c plt = Some cmds ∧
       (plotter.Step_XYs pts = [] → fills cmds = []) ∧
       (draw.ClipLinesXY c (pointsOn pts c plt) = [] → strokes cmds = [])) ∧
  (∀ pts c, ∃ range cmds,
     plotter.DataRange pts = range ∧ plotter.Thumbnail pts c = cmds).
Proof.
  assert (Herr : ∀ err, plotter.NewStep DefaultLineStyle xys = inr err
                        ↔ plotter.CopyXYs xys = inr err).
  { intros err. unfold plotter.NewStep.
    destruct (plotter.CopyXYs xys) as [data|err']; split; congruence. }
  split; [exact Herr|]. split; [|split; [|split]].
  - rewrite <- CopyXYs_fails.
    split; intros [err H]; exists err; apply Herr; exact H.
  - intros s. unfold plotter.NewStep.
    destruct (plotter.CopyXYs xys) as [data|err] eqn:Hcopy; [|discriminate].
    apply CopyXYs_copies in Hcopy. subst data. intros [= <-]. reflexivity.
  - intros pts c plt. eexists. split; [apply Plot_commands|]. split.
    + intros Hempty. rewrite fills_app, fills_strokeCmds, fills_fillCmds.
      apply (pointsOn_nil pts c plt) in Hempty. rewrite Hempty.
      destruct (plotter.FillColor pts); reflexivity.
    + intros Hclip. rewrite strokes_app, strokes_fillCmds, strokes_strokeCmds.
      rewrite Hclip. destruct (plotter.LineStyle pts); reflexivity.
  - intros pts c. eauto.
Qed.

Lemma construction_may_fail_rendering_never_witness :
  plotter.NewStep thinLine scenarioXYs
  = inl {| plotter.Step_XYs := scenarioXYs;
           plotter.StepStyle := plotter.PreStep;
           plotter.LineStyle := Some thinLine;
           plotter.FillColor := None |} ∧
  plotter.NewStep thinLine [plotter.mkXY 0 1; plotter.mkXY nan 3]
  = inr plotter.InvalidInput ∧
  ∃ p, p ∈ [plotter.mkXY 0 1; plotter.mkXY nan 3] ∧ plotter.malformed p = true.
Proof.
  split; [reflexivity|]. split; [reflexivity|].
  apply (construction_may_fail_rendering_never thinLine
           [plotter.mkXY 0 1; plotter.mkXY nan 3]).
  exists plotter.InvalidInput. reflexivity.
Defined.

(** * Minimum and maximum of floats *)

Lemma IsInf_below x : math.IsInf x (-1) = (x <? - math.MaxFloat64)%float.
Proof.
  unfold math.IsInf.
  rewrite bool_decide_eq_false_2, bool_decide_eq_true_2 by lia. reflexivity.
Qed.

Lemma IsInf_above x : math.IsInf x 1 = (math.MaxFloat64 <? x)%float.
Proof.
  unfold math.IsInf.
  rewrite bool_decide_eq_true_2, bool_decide_eq_false_2 by lia.
  cbn [andb]. apply orb_false_r.
Qed.

Lemma Prim2SF_zero : Prim2SF 0 = S754_zero false.
Proof. reflexivity. Qed.

Lemma Prim2SF_below : Prim2SF (- math.MaxFloat64) = S754_finite true 9007199254740991 971.
Proof. reflexivity. Qed.

Lemma Prim2SF_above : Prim2SF math.MaxFloat64 = S754_finite false 9007199254740991 971.
Proof. reflexivity. Qed.

Lemma aboveZero_cases x :
  aboveZero x →
  Prim2SF x = S754_infinity false ∨ ∃ m e, Prim2SF x = S754_finite false m e.
Proof.
  unfold aboveZero. rewrite ltb_spec, Prim2SF_zero.
  destruct (Prim2SF x) as [s|s| |s m e]; try discriminate;
    destruct s; try discriminate; eauto.
Qed.

Lemma belowZero_cases x :
  belowZero x →
  Prim2SF x = S754_infinity true ∨ ∃ m e, Prim2SF x = S754_finite true m e.
Proof.
  unfold belowZero. rewrite ltb_spec, Prim2SF_zero.
  destruct (Prim2SF x) as [s|s| |s m e]; try discriminate;
    destruct s; try discriminate; eauto.
Qed.

Lemma SFeqb_finite_refl s m e : SFeqb (S754_finite s m e) (S754_finite s m e) = true.
Proof.
  unfold SFeqb, SFcompare.
  rewrite Z.compare_refl, Pos.compare_cont_refl. destruct s; reflexivity.
Qed.

(** What the comparisons in [Min] and [Max] give for a float above zero
    and for one below. *)
Lemma aboveZero_facts x :
  aboveZero x →
  (x <? - math.MaxFloat64)%float = false ∧ (x =? x)%float = true ∧
  (x =? 0)%float = false ∧ (x <? 0)%float = false.
Proof.
  intros Hx. rewrite !ltb_spec, !FloatAxioms.eqb_spec, Prim2SF_zero, Prim2SF_below.
  destruct (aboveZero_cases x Hx) as [-> | (m & e & ->)].
  - repeat split; reflexivity.
  - rewrite SFeqb_finite_refl. repeat split; reflexivity.
Qed.

Lemma belowZero_facts x :
  belowZero x →
  (math.MaxFloat64 <? x)%float = false ∧ (x =? x)%float = true ∧
  (x =? 0)%float = false ∧ (0 <? x)%float = false.
Proof.
  intros Hx. rewrite !ltb_spec, !FloatAxioms.eqb_spec, Prim2SF_zero, Prim2SF_above.
  destruct (belowZero_cases x Hx) as [-> | (m & e & ->)].
  - repeat split; reflexivity.
  - rewrite SFeqb_finite_refl. repeat split; reflexivity.
Qed.

Lemma Min_positive_zero x : aboveZero x → math.Min x 0 = 0%float.
Proof.
  intros Hx. destruct (aboveZero_facts x Hx) as (H1 & H2 & H3 & H4).
  unfold math.Min, math.IsNaN. rewrite !IsInf_below, H1, H2, H3, H4.
  reflexivity.
Qed.

Lemma Max_negative_zero x : belowZero x → math.Max x 0 = 0%float.
Proof.
  intros Hx. destruct (belowZero_facts x Hx) as (H1 & H2 & H3 & H4).
  unfold math.Max, math.IsNaN. rewrite !IsInf_above, H1, H2, H3, H4.
  reflexivity.
Qed.

Lemma Min_positive x y : aboveZero x → aboveZero y → aboveZero (math.Min x y).
Proof.
  intros Hx Hy.
  destruct (aboveZero_facts x Hx) as (H1 & H2 & H3 & _).
  destruct (aboveZero_facts y Hy) as (H1' & H2' & _ & _).
  unfold math.Min, math.IsNaN. rewrite !IsInf_below, H1, H1', H2, H2', H3.
  cbn [orb andb negb]. destruct (x <? y)%float; assumption.
Qed.

Lemma Max_negative x y : belowZero x → belowZero y → belowZero (math.Max x y).
Proof.
  intros Hx Hy.
  destruct (belowZero_facts x Hx) as (H1 & H2 & H3 & _).
  destruct (belowZero_facts y Hy) as (H1' & H2' & _ & _).
  unfold math.Max, math.IsNaN. rewrite !IsInf_above, H1, H1', H2, H2', H3.
  cbn [orb andb negb]. destruct (y <? x)%float; assumption.
Qed.

(** The least of a list of floats above zero is above zero, the greatest
    of a list of floats below zero is below zero. *)
Lemma Range_min_positive vs : ∀ min max,
  aboveZero min → Forall aboveZero vs →
  aboveZero (foldl (fun '(min, max) v => (math.Min min v, math.Max max v))
                  (min, max) vs).1.
Proof.
  induction vs as [|v vs IH]; intros min max Hmin Hvs; [exact Hmin|].
  apply Forall_cons in Hvs as [Hv Hvs]. cbn [foldl].
  apply IH; [apply Min_positive; assumption | exact Hvs].
Qed.

Lemma Range_max_negative vs : ∀ min max,
  belowZero max → Forall belowZero vs →
  belowZero (foldl (fun '(min, max) v => (math.Min min v, math.Max max v))
                  (min, max) vs).2.
Proof.
  induction vs as [|v vs IH]; intros min max Hmax Hvs; [exact Hmax|].
  apply Forall_cons in Hvs as [Hv Hvs]. cbn [foldl].
  apply IH; [apply Max_negative; assumption | exact Hvs].
Qed.

(** * The data range *)

(** C6: with a fill colour [DataRange] is the bounding box of the points
    with only its y bounds changed, to [Min(ymin, 0)] and [Max(ymax, 0)];
    so [ymin] is 0 when every y is above zero and [ymax] is 0 when every y
    is below zero; without a fill colour it is the bounding box itself. *)
Theorem data_range_reaches_zero_when_filled (pts : plotter.Step) :
  (∀ col, plotter.FillColor pts = Some col →
     plotter.DataRange pts
     = let '(xmin, xmax, ymin, ymax) := plotter.XYRange (plotter.Step_XYs pts) in
       (xmin, xmax, math.Min ymin 0, math.Max ymax 0)) ∧
  (plotter.FillColor pts = None →
     plotter.DataRange pts = plotter.XYRange (plotter.Step_XYs pts)) ∧
  (∀ col, plotter.FillColor pts = Some col →
     plotter.Step_XYs pts ≠ [] →
     Forall (fun p => aboveZero (plotter.Y p)) (plotter.Step_XYs pts) →
     rangeYmin (plotter.DataRange pts) = 0%float) ∧
  (∀ col, plotter.FillColor pts = Some col →
     plotter.Step_XYs pts ≠ [] →
     Forall (fun p => belowZero (plotter.Y p)) (plotter.Step_XYs pts) →
     rangeYmax (plotter.DataRange pts) = 0%float).
Proof.
  unfold plotter.DataRange, plotter.XYRange, plotter.Range.
  split; [|split; [|split]].
  - intros col ->. reflexivity.
  - intros ->. reflexivity.
  - intros col -> _ Hpos.
    pose proof (Range_min_positive (map plotter.Y (plotter.Step_XYs pts))
                  (math.Inf 1) (math.Inf (-1)) eq_refl) as Hmin.
    destruct (foldl _ _ (map plotter.X _)) as [xmin xmax].
    destruct (foldl _ _ (map plotter.Y _)) as [ymin ymax].
    unfold rangeYmin. cbn [fst snd] in *.
    apply Min_positive_zero, Hmin, Forall_fmap. exact Hpos.
  - intros col -> _ Hneg.
    pose proof (Range_max_negative (map plotter.Y (plotter.Step_XYs pts))
                  (math.Inf 1) (math.Inf (-1)) eq_refl) as Hmax.
    destruct (foldl _ _ (map plotter.X _)) as [xmin xmax].
    destruct (foldl _ _ (map plotter.Y _)) as [ymin ymax].
    unfold rangeYmax. cbn [fst snd] in *.
    apply Max_negative_zero, Hmax, Forall_fmap. exact Hneg.
Qed.

Lemma data_range_reaches_zero_when_filled_witness :
  plotter.DataRange (scenarioStep plotter.PreStep) = (0, 2, 0, 3)%float ∧
  rangeYmin (plotter.DataRange (scenarioStep plotter.PreStep)) = 0%float ∧
  plotter.DataRange sunkStep = (0, 1, -3, 0)%float ∧
  rangeYmax (plotter.DataRange sunkStep) = 0%float.
Proof.
  split; [reflexivity|]. split; [|split; [reflexivity|]].
  - destruct (data_range_reaches_zero_when_filled (scenarioStep plotter.PreStep))
      as (_ & _ & H & _).
    apply (H color.Black); [reflexivity | discriminate |].
    repeat constructor.
  - destruct (data_range_reaches_zero_when_filled sunkStep) as (_ & _ & _ & H).
    apply (H color.Black); [reflexivity | discriminate |].
    repeat constructor.
Defined.

(** * More on the stroke: one open polyline, from the first point to the last *)

Lemma concat_strokeTo style (pairs : list (vg.Point * vg.Point)) :
  concat (strokeTo style <$> pairs)
  = vg.LineComp <$> concat ((fun pr => between style pr.1 pr.2 ++ [pr.2]) <$> pairs).
Proof.
  induction pairs as [|pr pairs IH]; [reflexivity|].
  rewrite !fmap_cons. cbn [concat]. rewrite fmap_app, IH. reflexivity.
Qed.

Lemma strokePath_steps style first rest :
  plotter.strokePath style (first :: rest)
  = Some (vg.MoveComp first :: (vg.LineComp <$> stepsOver style (first :: rest))).
Proof. rewrite strokePath_cons, concat_strokeTo. reflexivity. Qed.

Lemma stepsOver_single style a : stepsOver style [a] = [].
Proof. reflexivity. Qed.

Lemma stepsOver_cons style a b l :
  stepsOver style (a :: b :: l)
  = between style a b ++ b :: stepsOver style (b :: l).
Proof.
  unfold stepsOver. rewrite consecutive_cons, fmap_cons. cbn [concat fst snd].
  rewrite <- app_assoc. reflexivity.
Qed.

Lemma last_stepsOver style rest : ∀ prev,
  last (prev :: stepsOver style (prev :: rest)) = last (prev :: rest).
Proof.
  induction rest as [|pt rest IH]; intros prev; [reflexivity|].
  rewrite stepsOver_cons, last_cons_cons.
  rewrite app_comm_cons, last_app_cons, IH. reflexivity.
Qed.

Lemma vertices_move_lines first (body : list vg.Point) :
  vg.vertices (vg.MoveComp first :: (vg.LineComp <$> body)) = first :: body.
Proof.
  change (vg.MoveComp first :: (vg.LineComp <$> body))
    with ([vg.MoveComp first] ++ (vg.LineComp <$> body)).
  rewrite vertices_app, vertices_lines. reflexivity.
Qed.

(** X1: the path stroked for a clipped line is one open polyline: a move to
    the first point of the line followed by lines only (no second move, no
    close), and its last vertex is the last point of the line. *)
Theorem stroke_is_one_open_polyline (style : plotter.StepKind)
    (l : list vg.Point) (p : vg.Path) :
  plotter.strokePath style l = Some p →
  ∃ first body,
    head l = Some first ∧
    p = vg.MoveComp first :: (vg.LineComp <$> body) ∧
    last (vg.vertices p) = last l.
Proof.
  intros Hp. destruct l as [|first rest]; [discriminate Hp|].
  rewrite strokePath_steps in Hp. injection Hp as <-.
  exists first, (stepsOver style (first :: rest)).
  split; [reflexivity|]. split; [reflexivity|].
  rewrite vertices_move_lines. apply last_stepsOver.
Qed.

Lemma stroke_is_one_open_polyline_witness :
  ∃ first body,
    head scenario = Some first ∧
    [vg.MoveComp (vg.mkPoint 0 1); vg.LineComp (vg.mkPoint 0.5 1);
     vg.LineComp (vg.mkPoint 0.5 3); vg.LineComp (vg.mkPoint 1 3);
     vg.LineComp (vg.mkPoint 1.5 3); vg.LineComp (vg.mkPoint 1.5 2);
     vg.LineComp (vg.mkPoint 2 2)]
    = vg.MoveComp first :: (vg.LineComp <$> body) ∧
    last (vg.vertices
            [vg.MoveComp (vg.mkPoint 0 1); vg.LineComp (vg.mkPoint 0.5 1);
             vg.LineComp (vg.mkPoint 0.5 3); vg.LineComp (vg.mkPoint 1 3);
             vg.LineComp (vg.mkPoint 1.5 3); vg.LineComp (vg.mkPoint 1.5 2);
             vg.LineComp (vg.mkPoint 2 2)])
    = last scenario.
Proof.
  exact (stroke_is_one_open_polyline plotter.MidStep scenario _ eq_refl).
Defined.

(** * Every segment of a step is vertical or horizontal *)

Lemma rectilinear_join (l k : list vg.Point) (x : vg.Point) :
  rectilinear (l ++ [x]) → rectilinear (x :: k) → rectilinear (l ++ x :: k).
Proof.
  induction l as [|a l IH]; intros Hl Hk; [exact Hk|].
  destruct l as [|b l].
  - destruct Hl as [Hax _]. split; assumption.
  - destruct Hl as [Hab Hl]. split; [exact Hab|]. apply IH; assumption.
Qed.

Lemma rectilinear_snoc (l : list vg.Point) (y z : vg.Point) :
  rectilinear l → last l = Some y → aligned y z → rectilinear (l ++ [z]).
Proof.
  intros Hl Hy Hyz. apply last_Some in Hy as [l' ->].
  rewrite <- app_assoc. apply rectilinear_join; [exact Hl|].
  split; [exact Hyz | exact I].
Qed.

Lemma rectilinear_prefix (l k : list vg.Point) :
  rectilinear (l ++ k) → rectilinear l.
Proof.
  induction l as [|a l IH]; intros H; [exact I|].
  destruct l as [|b l]; [exact I|].
  destruct H as [Hab H]. split; [exact Hab|]. apply IH. exact H.
Qed.

Lemma between_rectilinear style prev pt :
  isStepKind style → rectilinear (prev :: between style prev pt ++ [pt]).
Proof.
  intros [-> | [-> | ->]]; cbn; unfold aligned; cbn;
    repeat split; first [left; reflexivity | right; reflexivity].
Qed.

Lemma stepsOver_rectilinear style rest : ∀ prev,
  isStepKind style → rectilinear (prev :: stepsOver style (prev :: rest)).
Proof.
  induction rest as [|pt rest IH]; intros prev Hstyle; [exact I|].
  rewrite stepsOver_cons, app_comm_cons.
  apply rectilinear_join; [|apply IH; exact Hstyle].
  apply between_rectilinear. exact Hstyle.
Qed.

(** X2: for each of the three step kinds every segment of the stroke of a
    clipped line is vertical or horizontal: two consecutive vertices have
    the same x or the same y. *)
Theorem stroke_is_rectilinear (style : plotter.StepKind) (l : list vg.Point)
    (p : vg.Path) :
  isStepKind style → plotter.strokePath style l = Some p →
  rectilinear (vg.vertices p).
Proof.
  intros Hstyle Hp. destruct l as [|first rest]; [discriminate Hp|].
  rewrite strokePath_steps in Hp. injection Hp as <-.
  rewrite vertices_move_lines. apply stepsOver_rectilinear. exact Hstyle.
Qed.

Lemma stroke_is_rectilinear_witness :
  isStepKind plotter.MidStep ∧
  rectilinear
    [vg.mkPoint 0 1; vg.mkPoint 0.5 1; vg.mkPoint 0.5 3; vg.mkPoint 1 3;
     vg.mkPoint 1.5 3; vg.mkPoint 1.5 2; vg.mkPoint 2 2].
Proof.
  split; [right; left; reflexivity|].
  apply (stroke_is_rectilinear plotter.MidStep scenario
           [vg.MoveComp (vg.mkPoint 0 1); vg.LineComp (vg.mkPoint 0.5 1);
            vg.LineComp (vg.mkPoint 0.5 3); vg.LineComp (vg.mkPoint 1 3);
            vg.LineComp (vg.mkPoint 1.5 3); vg.LineComp (vg.mkPoint 1.5 2);
            vg.LineComp (vg.mkPoint 2 2)]);
    [right; left; reflexivity | reflexivity].
Defined.

(** * The outline of the fill against the stroke *)

Lemma fillPath_vertices style p0 rest pn minY pa :
  last (p0 :: rest) = Some pn →
  plotter.fillPath style (p0 :: rest) minY = Some pa →
  vg.vertices pa
  = vg.mkPoint (vg.X p0) minY
      :: (if bool_decide (style ≠ plotter.PreStep) then [p0] else [])
      ++ vg.vertices (plotter.fillLoop style (go.len (p0 :: rest)) 0 p0 [] rest)
      ++ [vg.mkPoint (vg.X pn) minY].
Proof.
  intros Hpn Hpa. rewrite (fillPath_cons _ _ _ pn) in Hpa by exact Hpn.
  injection Hpa as <-.
  change (vg.MoveComp ?q :: ?b) with ([vg.MoveComp q] ++ b).
  rewrite !vertices_app. case_bool_decide; reflexivity.
Qed.

Lemma fillLoop_vertices_pre_mid style n rest i prev :
  style = plotter.PreStep ∨ style = plotter.MidStep →
  vg.vertices (plotter.fillLoop style n i prev [] rest)
  = stepsOver style (prev :: rest).
Proof.
  intros Hstyle. rewrite fillLoop_pre_mid by exact Hstyle.
  rewrite concat_strokeTo. apply vertices_lines.
Qed.

Lemma stepsOver_cons_not_nil style a b l : stepsOver style (a :: b :: l) ≠ [].
Proof.
  rewrite stepsOver_cons. intros H. apply app_eq_nil in H as [_ H].
  discriminate H.
Qed.

Lemma postOutline_vertices rest : ∀ prev,
  vg.vertices (postOutline (consecutive (prev :: rest)))
  = removelast (stepsOver plotter.PostStep (prev :: rest)).
Proof.
  induction rest as [|pt rest IH]; intros prev; [reflexivity|].
  destruct rest as [|pt' rest]; [reflexivity|].
  rewrite (consecutive_cons prev pt), (consecutive_cons pt pt').
  rewrite postOutline_cons, vertices_app.
  rewrite <- (consecutive_cons pt pt'), IH.
  rewrite (stepsOver_cons _ prev pt).
  change (between plotter.PostStep prev pt
          ++ pt :: stepsOver plotter.PostStep (pt :: pt' :: rest))
    with ([vg.mkPoint (vg.X pt) (vg.Y prev); pt]
          ++ stepsOver plotter.PostStep (pt :: pt' :: rest)).
  rewrite removelast_app by apply stepsOver_cons_not_nil. reflexivity.
Qed.

(** X4: the outline of the fill follows the stroke of the same points: its
    vertices are those of the stroke between the two baseline points, all
    of them for a mid step, all but the first point for a pre step, and
    all but the last point for a post step over at least two points. *)
Theorem fill_outline_follows_stroke (style : plotter.StepKind)
    (p0 pn : vg.Point) (rest : list vg.Point) (minY : vg.Length)
    (pa p : vg.Path) :
  last (p0 :: rest) = Some pn →
  plotter.fillPath style (p0 :: rest) minY = Some pa →
  plotter.strokePath style (p0 :: rest) = Some p →
  (style = plotter.MidStep →
   vg.vertices pa
   = vg.mkPoint (vg.X p0) minY :: vg.vertices p ++ [vg.mkPoint (vg.X pn) minY]) ∧
  (style = plotter.PreStep →
   vg.vertices pa
   = vg.mkPoint (vg.X p0) minY :: tail (vg.vertices p)
       ++ [vg.mkPoint (vg.X pn) minY]) ∧
  (style = plotter.PostStep → rest ≠ [] →
   vg.vertices pa
   = vg.mkPoint (vg.X p0) minY :: removelast (vg.vertices p)
       ++ [vg.mkPoint (vg.X pn) minY]).
Proof.
  intros Hpn Hpa Hp.
  rewrite (fillPath_vertices _ _ _ _ _ _ Hpn Hpa).
  rewrite strokePath_steps in Hp. injection Hp as <-.
  rewrite vertices_move_lines.
  split; [|split].
  - intros ->. rewrite fillLoop_vertices_pre_mid by (right; reflexivity).
    reflexivity.
  - intros ->. rewrite fillLoop_vertices_pre_mid by (left; reflexivity).
    reflexivity.
  - intros -> Hrest. rewrite fillLoop_post by (rewrite len_cons; lia).
    rewrite postOutline_vertices.
    destruct rest as [|p1 rest]; [congruence|].
    change (p0 :: stepsOver plotter.PostStep (p0 :: p1 :: rest))
      with ([p0] ++ stepsOver plotter.PostStep (p0 :: p1 :: rest)).
    rewrite removelast_app by apply stepsOver_cons_not_nil. reflexivity.
Qed.

Lemma fill_outline_follows_stroke_witness :
  last scenario = Some (vg.mkPoint 2 2) ∧
  [vg.mkPoint 0 0; vg.mkPoint 0 1; vg.mkPoint 1 1; vg.mkPoint 1 3;
   vg.mkPoint 2 3; vg.mkPoint 2 0]
  = vg.mkPoint 0 0
      :: removelast [vg.mkPoint 0 1; vg.mkPoint 1 1; vg.mkPoint 1 3;
                     vg.mkPoint 2 3; vg.mkPoint 2 2]
      ++ [vg.mkPoint 2 0].
Proof.
  split; [reflexivity|].
  refine (proj2 (proj2 (fill_outline_follows_stroke plotter.PostStep
            (vg.mkPoint 0 1) (vg.mkPoint 2 2) [vg.mkPoint 1 3; vg.mkPoint 2 2]
            0%float _ _ eq_refl eq_refl eq_refl)) eq_refl _).
  discriminate.
Defined.

Lemma last_cons_not_nil (a b : vg.Point) (l : list vg.Point) :
  l ≠ [] → last (a :: l) = last (b :: l).
Proof. destruct l; [congruence|]. intros _. rewrite !last_cons_cons. reflexivity. Qed.

Lemma post_outline_ends_above_last rest : ∀ prev pn,
  last (prev :: rest) = Some pn →
  ∃ y, last (prev :: removelast (stepsOver plotter.PostStep (prev :: rest)))
       = Some y ∧ vg.X y = vg.X pn.
Proof.
  induction rest as [|pt rest IH]; intros prev pn Hpn.
  - injection Hpn as <-. exists prev. split; reflexivity.
  - destruct rest as [|pt' rest].
    + injection Hpn as <-. eexists. split; reflexivity.
    + rewrite last_cons_cons in Hpn.
      destruct (IH pt pn Hpn) as (y & Hy & Hx).
      exists y. split; [|exact Hx].
      rewrite (stepsOver_cons _ prev pt).
      change (between plotter.PostStep prev pt
              ++ pt :: stepsOver plotter.PostStep (pt :: pt' :: rest))
        with ([vg.mkPoint (vg.X pt) (vg.Y prev); pt]
              ++ stepsOver plotter.PostStep (pt :: pt' :: rest)).
      rewrite removelast_app by apply stepsOver_cons_not_nil.
      cbn [app]. rewrite !last_cons_cons.
      rewrite <- Hy.
      destruct (removelast (stepsOver plotter.PostStep (pt :: pt' :: rest)));
        reflexivity.
Qed.

Lemma closed_outline_rectilinear (b0 bn y : vg.Point) (mid : list vg.Point) :
  rectilinear (b0 :: mid) → last (b0 :: mid) = Some y → aligned y bn →
  aligned bn b0 → rectilinear ((b0 :: mid ++ [bn]) ++ [b0]).
Proof.
  intros Hmid Hy Hybn Hclose.
  apply (rectilinear_snoc _ bn b0); [|apply (last_snoc bn (b0 :: mid))|exact Hclose].
  apply (rectilinear_snoc (b0 :: mid) y bn); assumption.
Qed.

(** X3: for each of the three step kinds every edge of the filled polygon
    is vertical or horizontal, the edge that closes it included: the riser
    left out for a pre step and the one left out for a post step leave no
    diagonal. *)
Theorem fill_is_rectilinear (style : plotter.StepKind) (ps : list vg.Point)
    (minY : vg.Length) (pa : vg.Path) :
  isStepKind style → plotter.fillPath style ps minY = Some pa →
  ∃ v0, head (vg.vertices pa) = Some v0 ∧ rectilinear (vg.vertices pa ++ [v0]).
Proof.
  intros Hstyle Hpa. destruct ps as [|p0 rest]; [discriminate Hpa|].
  destruct (last_is_Some (p0 :: rest)) as [pn Hpn]; [discriminate|].
  rewrite (fillPath_vertices _ _ _ _ _ _ Hpn Hpa).
  exists (vg.mkPoint (vg.X p0) minY). split; [reflexivity|].
  pose proof (stepsOver_rectilinear style rest p0 Hstyle) as Hrect.
  pose proof (last_stepsOver style rest p0) as Hlast. rewrite Hpn in Hlast.
  assert (Hdown : ∀ q, vg.X q = vg.X pn → aligned q (vg.mkPoint (vg.X pn) minY))
    by (intros q Hq; left; exact Hq).
  assert (Hclose : aligned (vg.mkPoint (vg.X pn) minY) (vg.mkPoint (vg.X p0) minY))
    by (right; reflexivity).
  destruct Hstyle as [-> | [-> | ->]].
  - rewrite fillLoop_vertices_pre_mid by (left; reflexivity).
    rewrite bool_decide_eq_false_2 by (intros H; apply H; reflexivity).
    cbn [app]. destruct rest as [|p1 rest].
    + injection Hpn as <-.
      apply (closed_outline_rectilinear _ _ (vg.mkPoint (vg.X p0) minY) []);
        [exact I | reflexivity | left; reflexivity | exact Hclose].
    + apply (closed_outline_rectilinear _ _ pn); [| |apply Hdown; reflexivity|exact Hclose].
      * rewrite stepsOver_cons in Hrect |- *.
        destruct Hrect as [_ Hrect]. split; [left; reflexivity | exact Hrect].
      * rewrite <- Hlast. apply last_cons_not_nil, stepsOver_cons_not_nil.
  - rewrite fillLoop_vertices_pre_mid by (right; reflexivity).
    rewrite bool_decide_eq_true_2 by discriminate. cbn [app].
    apply (closed_outline_rectilinear _ _ pn (p0 :: stepsOver plotter.MidStep (p0 :: rest)));
      [|rewrite last_cons_cons; exact Hlast|apply Hdown; reflexivity|exact Hclose].
    split; [left; reflexivity | exact Hrect].
  - rewrite fillLoop_post by (rewrite len_cons; lia).
    rewrite postOutline_vertices.
    rewrite bool_decide_eq_true_2 by discriminate. cbn [app].
    destruct (post_outline_ends_above_last rest p0 pn Hpn) as (y & Hy & Hx).
    apply (closed_outline_rectilinear _ _ y
             (p0 :: removelast (stepsOver plotter.PostStep (p0 :: rest))));
      [|rewrite last_cons_cons; exact Hy|apply Hdown; exact Hx|exact Hclose].
    split; [left; reflexivity|].
    destruct rest as [|p1 rest]; [exact I|].
    apply (rectilinear_prefix _
             [List.last (stepsOver plotter.PostStep (p0 :: p1 :: rest)) p0]).
    rewrite <- app_comm_cons, <- app_removelast_last
      by apply stepsOver_cons_not_nil.
    exact Hrect.
Qed.

Lemma fill_is_rectilinear_witness :
  isStepKind plotter.PostStep ∧
  ∃ v0,
    head [vg.mkPoint 0 0; vg.mkPoint 0 1; vg.mkPoint 1 1; vg.mkPoint 1 3;
          vg.mkPoint 2 3; vg.mkPoint 2 0] = Some v0 ∧
    rectilinear ([vg.mkPoint 0 0; vg.mkPoint 0 1; vg.mkPoint 1 1; vg.mkPoint 1 3;
                  vg.mkPoint 2 3; vg.mkPoint 2 0] ++ [v0]).
Proof.
  split; [right; right; reflexivity|].
  apply (fill_is_rectilinear plotter.PostStep scenario 0%float
           [vg.MoveComp (vg.mkPoint 0 0); vg.LineComp (vg.mkPoint 0 1);
            vg.LineComp (vg.mkPoint 1 1); vg.LineComp (vg.mkPoint 1 3);
            vg.LineComp (vg.mkPoint 2 3); vg.LineComp (vg.mkPoint 2 0);
            vg.CloseComp]);
    [right; right; reflexivity | reflexivity].
Defined.

(** * Where the vertices of a step come from *)

Lemma between_ys style prev pt v :
  v ∈ between style prev pt → vg.Y v = vg.Y prev ∨ vg.Y v = vg.Y pt.
Proof.
  unfold between. intros H.
  repeat case_bool_decide;
    repeat (apply elem_of_cons in H as [-> | H]);
    try (apply elem_of_nil in H; destruct H); cbn; auto.
Qed.

Lemma between_xs style prev pt v :
  style ≠ plotter.MidStep →
  v ∈ between style prev pt → vg.X v = vg.X prev ∨ vg.X v = vg.X pt.
Proof.
  unfold between. intros Hmid H.
  repeat case_bool_decide; try congruence;
    repeat (apply elem_of_cons in H as [-> | H]);
    try (apply elem_of_nil in H; destruct H); cbn; auto.
Qed.

(** A coordinate that every vertex of a step shares with one of the two
    points it joins is shared by every vertex of the stroke with a point of
    the line. *)
Lemma stepsOver_from_line {C : Type} (coord : vg.Point → C) style l v :
  (∀ prev pt w, w ∈ between style prev pt →
                coord w = coord prev ∨ coord w = coord pt) →
  v ∈ stepsOver style l → ∃ q, q ∈ l ∧ coord v = coord q.
Proof.
  intros Hbetween. induction l as [|a l IH]; intros Hv.
  - apply elem_of_nil in Hv. destruct Hv.
  - destruct l as [|b l]; [apply elem_of_nil in Hv; destruct Hv|].
    rewrite stepsOver_cons in Hv.
    apply elem_of_app in Hv as [Hv | Hv].
    + destruct (Hbetween a b v Hv) as [H | H].
      * exists a. split; [left | exact H].
      * exists b. split; [right; left | exact H].
    + apply elem_of_cons in Hv as [-> | Hv].
      * exists b. split; [right; left | reflexivity].
      * destruct (IH Hv) as (q & Hq & H). exists q. split; [right; exact Hq | exact H].
Qed.

Lemma fillIter_vertices_sub style n i prev pt v :
  v ∈ vg.vertices (plotter.fillIter style n i prev pt []) →
  v ∈ between style prev pt ++ [pt].
Proof.
  unfold plotter.fillIter, between, vg.Line. intros H.
  repeat case_bool_decide; cbn in H |- *; try exact H.
  - apply elem_of_cons in H as [-> | H]; [left | apply elem_of_nil in H; destruct H].
  - apply elem_of_nil in H. destruct H.
Qed.

(** Whatever the kind, the loop of the fill draws no vertex that the stroke
    of the same points does not have. *)
Lemma fillLoop_vertices_sub style n rest : ∀ i prev v,
  v ∈ vg.vertices (plotter.fillLoop style n i prev [] rest) →
  v ∈ stepsOver style (prev :: rest).
Proof.
  induction rest as [|pt rest IH]; intros i prev v Hv.
  - apply elem_of_nil in Hv. destruct Hv.
  - cbn [plotter.fillLoop] in Hv. rewrite fillLoop_app, vertices_app in Hv.
    rewrite stepsOver_cons.
    apply elem_of_app in Hv as [Hv | Hv].
    + apply fillIter_vertices_sub in Hv.
      apply elem_of_app in Hv as [Hv | Hv]; apply elem_of_app; [left; exact Hv|].
      apply elem_of_cons in Hv as [-> | Hv]; [right; left|].
      apply elem_of_nil in Hv. destruct Hv.
    + apply elem_of_app. right. right. apply (IH _ _ _ Hv).
Qed.

(** X5: a step adds no height of its own: the y of every vertex of the
    stroke is the y of a point of the line, and the y of every vertex of
    the fill is the baseline or the y of a point; unless the step is a mid
    step the same holds of x, the x of a vertex is the x of a point. *)
Theorem step_vertices_stay_on_the_data (style : plotter.StepKind)
    (ps : list vg.Point) (minY : vg.Length) (v : vg.Point) :
  (∀ p, plotter.strokePath style ps = Some p → v ∈ vg.vertices p →
        (∃ q, q ∈ ps ∧ vg.Y v = vg.Y q) ∧
        (style ≠ plotter.MidStep → ∃ q, q ∈ ps ∧ vg.X v = vg.X q)) ∧
  (∀ pa, plotter.fillPath style ps minY = Some pa → v ∈ vg.vertices pa →
         (vg.Y v = minY ∨ ∃ q, q ∈ ps ∧ vg.Y v = vg.Y q) ∧
         (style ≠ plotter.MidStep → ∃ q, q ∈ ps ∧ vg.X v = vg.X q)).
Proof.
  split.
  - intros p Hp Hv. destruct ps as [|first rest]; [discriminate Hp|].
    rewrite strokePath_steps in Hp. injection Hp as <-.
    rewrite vertices_move_lines in Hv.
    apply elem_of_cons in Hv as [-> | Hv].
    { split; [|intros _]; exists first; (split; [left | reflexivity]). }
    split; [|intros Hmid].
    + apply (stepsOver_from_line vg.Y style); [apply between_ys | exact Hv].
    + apply (stepsOver_from_line vg.X style); [|exact Hv].
      intros prev pt w. apply between_xs. exact Hmid.
  - intros pa Hpa Hv. destruct ps as [|p0 rest]; [discriminate Hpa|].
    destruct (last_is_Some (p0 :: rest)) as [pn Hpn]; [discriminate|].
    rewrite (fillPath_vertices _ _ _ _ _ _ Hpn Hpa) in Hv.
    assert (Hp0 : p0 ∈ p0 :: rest) by left.
    assert (Hpn' : pn ∈ p0 :: rest) by (apply last_Some_elem_of; exact Hpn).
    apply elem_of_cons in Hv as [-> | Hv].
    { split; [left; reflexivity | intros _; exists p0; split; [exact Hp0 | reflexivity]]. }
    apply elem_of_app in Hv as [Hv | Hv].
    { assert (v = p0) as ->.
      { case_bool_decide; [|apply elem_of_nil in Hv; destruct Hv].
        apply elem_of_cons in Hv as [-> | Hv]; [reflexivity|].
        apply elem_of_nil in Hv. destruct Hv. }
      split; [right|intros _]; exists p0; (split; [exact Hp0 | reflexivity]). }
    apply elem_of_app in Hv as [Hv | Hv].
    + apply fillLoop_vertices_sub in Hv. split; [right|intros Hmid].
      * apply (stepsOver_from_line vg.Y style); [apply between_ys | exact Hv].
      * apply (stepsOver_from_line vg.X style); [|exact Hv].
        intros prev pt w. apply between_xs. exact Hmid.
    + apply elem_of_cons in Hv as [-> | Hv];
        [|apply elem_of_nil in Hv; destruct Hv].
      split; [left; reflexivity | intros _; exists pn; split; [exact Hpn' | reflexivity]].
Qed.

Lemma step_vertices_stay_on_the_data_witness :
  (∃ q, q ∈ scenario ∧ vg.Y (vg.mkPoint 1 1) = vg.Y q) ∧
  (∃ q, q ∈ scenario ∧ vg.X (vg.mkPoint 1 1) = vg.X q).
Proof.
  destruct (proj1 (step_vertices_stay_on_the_data plotter.PostStep scenario
                     0%float (vg.mkPoint 1 1))
              [vg.MoveComp (vg.mkPoint 0 1); vg.LineComp (vg.mkPoint 1 1);
               vg.LineComp (vg.mkPoint 1 3); vg.LineComp (vg.mkPoint 2 3);
               vg.LineComp (vg.mkPoint 2 2)] eq_refl) as [Hy Hx].
  { right. left. }
  split; [exact Hy | apply Hx; discriminate].
Defined.

(** * The size of the paths *)

Lemma length_between style a b : length (between style a b) = stepVertices style.
Proof. unfold between, stepVertices. repeat case_bool_decide; reflexivity. Qed.

Lemma length_stepsOver style rest : ∀ prev,
  length (stepsOver style (prev :: rest))
  = (length rest * S (stepVertices style))%nat.
Proof.
  induction rest as [|pt rest IH]; intros prev; [reflexivity|].
  rewrite stepsOver_cons, length_app, length_between. cbn [length].
  rewrite IH. lia.
Qed.

Lemma length_consecutive rest : ∀ prev : vg.Point,
  length (consecutive (prev :: rest)) = length rest.
Proof.
  induction rest as [|pt rest IH]; intros prev; [reflexivity|].
  rewrite consecutive_cons. cbn [length]. rewrite IH. reflexivity.
Qed.

Lemma length_postOutline rest : ∀ prev,
  length (postOutline (consecutive (prev :: rest)))
  = (2 * length rest - 1)%nat.
Proof.
  induction rest as [|pt rest IH]; intros prev; [reflexivity|].
  destruct rest as [|pt' rest]; [reflexivity|].
  rewrite (consecutive_cons prev pt), (consecutive_cons pt pt').
  rewrite postOutline_cons, <- (consecutive_cons pt pt'), length_app, IH.
  cbn [length postTo]. lia.
Qed.

Lemma length_fillLoop_pre_mid style n rest i prev :
  style = plotter.PreStep ∨ style = plotter.MidStep →
  length (plotter.fillLoop style n i prev [] rest)
  = (length rest * S (stepVertices style))%nat.
Proof.
  intros Hstyle. rewrite fillLoop_pre_mid by exact Hstyle.
  rewrite concat_strokeTo, length_fmap. apply length_stepsOver.
Qed.

(** X6: the paths grow linearly with the points.  Over n points the stroke
    has 2n-1 components for a pre or a post step, 3n-2 for a mid step and n
    for any other value; the fill has 2n+1 components for a pre step, 3n+1
    for a mid step, 2n+1 for a post step over at least two points, and 4
    for a post step over one point and for any other value. *)
Theorem path_sizes (style : plotter.StepKind) (ps : list vg.Point)
    (minY : vg.Length) :
  (∀ p, plotter.strokePath style ps = Some p →
        length p = (1 + (length ps - 1) * S (stepVertices style))%nat) ∧
  (∀ pa, plotter.fillPath style ps minY = Some pa →
         (style = plotter.PreStep → length pa = (2 * length ps + 1)%nat) ∧
         (style = plotter.MidStep → length pa = (3 * length ps + 1)%nat) ∧
         (style = plotter.PostStep → (2 ≤ length ps)%nat →
          length pa = (2 * length ps + 1)%nat) ∧
         (style = plotter.PostStep → length ps = 1%nat → length pa = 4%nat) ∧
         (¬ isStepKind style → length pa = 4%nat)).
Proof.
  split.
  - intros p Hp. destruct ps as [|first rest]; [discriminate Hp|].
    rewrite strokePath_steps in Hp. injection Hp as <-.
    cbn [length]. rewrite length_fmap, length_stepsOver. lia.
  - intros pa Hpa. destruct ps as [|p0 rest]; [discriminate Hpa|].
    destruct (last_is_Some (p0 :: rest)) as [pn Hpn]; [discriminate|].
    rewrite (fillPath_cons _ _ _ pn) in Hpa by exact Hpn.
    injection Hpa as <-. cbn [length]. rewrite !length_app. cbn [length].
    split; [|split; [|split; [|split]]].
    + intros ->. rewrite length_fillLoop_pre_mid by (left; reflexivity).
      rewrite bool_decide_eq_false_2 by (intros H; apply H; reflexivity).
      change (stepVertices plotter.PreStep) with 1%nat. cbn [length]. lia.
    + intros ->. rewrite length_fillLoop_pre_mid by (right; reflexivity).
      rewrite bool_decide_eq_true_2 by discriminate.
      change (stepVertices plotter.MidStep) with 2%nat. cbn [length]. lia.
    + intros -> Hn. rewrite fillLoop_post by (rewrite len_cons; lia).
      rewrite length_postOutline.
      rewrite bool_decide_eq_true_2 by discriminate. cbn [length] in Hn |- *. lia.
    + intros -> Hn. rewrite fillLoop_post by (rewrite len_cons; lia).
      rewrite length_postOutline.
      rewrite bool_decide_eq_true_2 by discriminate. cbn [length] in Hn |- *. lia.
    + intros Hother. unfold isStepKind in Hother.
      rewrite fillLoop_other by tauto.
      rewrite bool_decide_eq_true_2 by tauto. reflexivity.
Qed.

Lemma path_sizes_witness :
  length [vg.MoveComp (vg.mkPoint 0 1); vg.LineComp (vg.mkPoint 1 1);
          vg.LineComp (vg.mkPoint 1 3); vg.LineComp (vg.mkPoint 2 3);
          vg.LineComp (vg.mkPoint 2 2)]
  = (1 + (length scenario - 1) * S (stepVertices plotter.PostStep))%nat ∧
  length [vg.MoveComp (vg.mkPoint 0 0); vg.LineComp (vg.mkPoint 0 1);
          vg.LineComp (vg.mkPoint 1 1); vg.LineComp (vg.mkPoint 1 3);
          vg.LineComp (vg.mkPoint 2 3); vg.LineComp (vg.mkPoint 2 0);
          vg.CloseComp]
  = (2 * length scenario + 1)%nat.
Proof.
  destruct (path_sizes plotter.PostStep scenario 0%float) as [Hs Hf].
  split; [exact (Hs _ eq_refl)|].
  destruct (Hf _ eq_refl) as (_ & _ & Hpost & _).
  apply Hpost; [reflexivity | cbn; lia].
Defined.

(** * [Plot]: the fill and the stroke do not depend on each other *)

Lemma pointsOn_fillOnly pts c plt : pointsOn (fillOnly pts) c plt = pointsOn pts c plt.
Proof. reflexivity. Qed.

Lemma pointsOn_lineOnly pts c plt : pointsOn (lineOnly pts) c plt = pointsOn pts c plt.
Proof. reflexivity. Qed.

(** X7: [Plot] draws the fill first and the stroke after it, and neither
    depends on the other: its commands are those of the step with the line
    style taken away followed by those of the step with the fill colour
    taken away; a step with neither draws nothing. *)
Theorem plot_is_fill_then_stroke (pts : plotter.Step) (c : draw.Canvas)
    (plt : plot.Plot) :
  (∃ filled stroked,
     plotter.Plot (fillOnly pts) c plt = Some filled ∧
     plotter.Plot (lineOnly pts) c plt = Some stroked ∧
     plotter.Plot pts c plt = Some (filled ++ stroked) ∧
     strokes filled = [] ∧ fills stroked = []) ∧
  (plotter.LineStyle pts = None → plotter.FillColor pts = None →
   plotter.Plot pts c plt = Some []).
Proof.
  split.
  - exists (fillCmds pts c plt), (strokeCmds pts c plt).
    rewrite !Plot_commands.
    split; [|split; [|split; [reflexivity|split]]].
    + unfold fillCmds, strokeCmds. cbn [fillOnly plotter.LineStyle
        plotter.FillColor plotter.StepStyle].
      rewrite pointsOn_fillOnly, app_nil_r. reflexivity.
    + unfold fillCmds, strokeCmds. cbn [lineOnly plotter.LineStyle
        plotter.FillColor plotter.StepStyle].
      rewrite pointsOn_lineOnly. reflexivity.
    + apply strokes_fillCmds.
    + apply fills_strokeCmds.
  - intros Hl Hf. rewrite Plot_commands. unfold fillCmds, strokeCmds.
    rewrite Hl, Hf. reflexivity.
Qed.

Lemma plot_is_fill_then_stroke_witness :
  plotter.Plot (fillOnly (lineOnly (scenarioStep plotter.MidStep)))
    wholeCanvas identityPlot = Some [].
Proof.
  apply (plot_is_fill_then_stroke (fillOnly (lineOnly (scenarioStep plotter.MidStep)))
           wholeCanvas identityPlot); reflexivity.
Defined.

Lemma strokePath_None_iff style (l : list vg.Point) :
  plotter.strokePath style l = None ↔ l = [].
Proof.
  destruct l as [|first rest]; [split; reflexivity|].
  rewrite strokePath_cons. split; discriminate.
Qed.

(** X8: with a line style [Plot] strokes one path for each non-empty line
    that clipping returns, in the order of the lines, and passes over the
    empty ones; it sets the line style exactly when clipping returns at
    least one line, be it an empty one. *)
Theorem plot_strokes_each_clipped_line (pts : plotter.Step) (c : draw.Canvas)
    (plt : plot.Plot) (sty : draw.LineStyle) :
  plotter.LineStyle pts = Some sty →
  ∃ cmds,
    plotter.Plot pts c plt = Some cmds ∧
    strokes cmds
    = omap (plotter.strokePath (plotter.StepStyle pts))
        (draw.ClipLinesXY c (pointsOn pts c plt)) ∧
    (∀ l, plotter.strokePath (plotter.StepStyle pts) l = None ↔ l = []) ∧
    (draw.SetLineStyle sty ∈ cmds ↔ draw.ClipLinesXY c (pointsOn pts c plt) ≠ []).
Proof.
  intros Hsty. eexists. split; [apply Plot_commands|]. split; [|split].
  - rewrite strokes_app, strokes_fillCmds, strokes_strokeCmds, Hsty. reflexivity.
  - intros l. apply strokePath_None_iff.
  - rewrite elem_of_app. unfold fillCmds, strokeCmds. rewrite Hsty.
    destruct (draw.ClipLinesXY c (pointsOn pts c plt)) as [|l lines].
    + split; [|congruence]. intros [H | H].
      * destruct (plotter.FillColor pts); [destruct (plotter.fillPath _ _ _)|].
        -- apply elem_of_cons in H as [H | H]; [discriminate H|].
           apply elem_of_cons in H as [H | H]; [discriminate H|].
           apply elem_of_nil in H. destruct H.
        -- apply elem_of_nil in H. destruct H.
        -- apply elem_of_nil in H. destruct H.
      * apply elem_of_nil in H. destruct H.
    + split; [discriminate|]. intros _. right. left.
Qed.

Lemma plot_strokes_each_clipped_line_witness :
  plotter.LineStyle (scenarioStep plotter.PreStep) = Some thinLine ∧
  plotter.Plot (lineOnly (scenarioStep plotter.PreStep)) splittingCanvas identityPlot
  = Some [draw.SetLineStyle thinLine;
          draw.Stroke [vg.MoveComp (vg.mkPoint 0 1); vg.LineComp (vg.mkPoint 0 3);
                       vg.LineComp (vg.mkPoint 1 3)];
          draw.Stroke [vg.MoveComp (vg.mkPoint 2 2)]] ∧
  ∃ cmds,
    plotter.Plot (scenarioStep plotter.PreStep) splittingCanvas identityPlot
    = Some cmds ∧
    strokes cmds
    = [[vg.MoveComp (vg.mkPoint 0 1); vg.LineComp (vg.mkPoint 0 3);
        vg.LineComp (vg.mkPoint 1 3)];
       [vg.MoveComp (vg.mkPoint 2 2)]].
Proof.
  split; [reflexivity|]. split; [reflexivity|].
  destruct (plot_strokes_each_clipped_line (scenarioStep plotter.PreStep)
              splittingCanvas identityPlot thinLine eq_refl)
    as (cmds & HP & Hs & _).
  exists cmds. split; [exact HP | exact Hs].
Defined.

(** * The data range always holds zero when the step is filled *)

Lemma Inf_below : math.Inf (-1) = neg_infinity.
Proof. reflexivity. Qed.

Lemma Inf_above : math.Inf 1 = infinity.
Proof. reflexivity. Qed.

Lemma Min_choice x y :
  notNaN x → notNaN y →
  math.Min x y = neg_infinity ∨ math.Min x y = x ∨ math.Min x y = y.
Proof.
  unfold notNaN, math.Min. intros -> ->. cbn [orb].
  destruct (math.IsInf x (-1) || math.IsInf y (-1)); [left; reflexivity|].
  destruct ((x =? 0)%float && (x =? y)%float);
    [destruct (math.Signbit x) | destruct (x <? y)%float]; auto.
Qed.

Lemma Max_choice x y :
  notNaN x → notNaN y →
  math.Max x y = infinity ∨ math.Max x y = x ∨ math.Max x y = y.
Proof.
  unfold notNaN, math.Max. intros -> ->. cbn [orb].
  destruct (math.IsInf x 1 || math.IsInf y 1); [left; reflexivity|].
  destruct ((x =? 0)%float && (x =? y)%float);
    [destruct (math.Signbit x) | destruct (y <? x)%float]; auto.
Qed.

Lemma Min_notNaN x y : notNaN x → notNaN y → notNaN (math.Min x y).
Proof.
  intros Hx Hy. destruct (Min_choice x y Hx Hy) as [-> | [-> | ->]];
    [reflexivity | exact Hx | exact Hy].
Qed.

Lemma Max_notNaN x y : notNaN x → notNaN y → notNaN (math.Max x y).
Proof.
  intros Hx Hy. destruct (Max_choice x y Hx Hy) as [-> | [-> | ->]];
    [reflexivity | exact Hx | exact Hy].
Qed.

Lemma Range_notNaN vs : ∀ min max,
  notNaN min → notNaN max → Forall notNaN vs →
  notNaN (foldl (fun '(min, max) v => (math.Min min v, math.Max max v))
                (min, max) vs).1 ∧
  notNaN (foldl (fun '(min, max) v => (math.Min min v, math.Max max v))
                (min, max) vs).2.
Proof.
  induction vs as [|v vs IH]; intros min max Hmin Hmax Hvs; [split; assumption|].
  apply Forall_cons in Hvs as [Hv Hvs]. cbn [foldl].
  apply IH; [apply Min_notNaN | apply Max_notNaN | ]; assumption.
Qed.

(** The order of a float that is a number against itself, zero and the
    infinities, read off its specification. *)
Lemma notNaN_spec x : notNaN x → SFeqb (Prim2SF x) (Prim2SF x) = true.
Proof.
  unfold notNaN, math.IsNaN. rewrite FloatAxioms.eqb_spec.
  destruct (SFeqb _ _); [reflexivity | discriminate].
Qed.

Lemma leb_refl x : notNaN x → (x <=? x)%float = true.
Proof.
  intros Hx. apply notNaN_spec in Hx. rewrite leb_spec.
  unfold SFeqb in Hx. unfold SFleb.
  destruct (SFcompare (Prim2SF x) (Prim2SF x)) as [[| |]|];
    first [reflexivity | discriminate].
Qed.

Lemma below_everything x : notNaN x → (neg_infinity <=? x)%float = true.
Proof.
  intros Hx. apply notNaN_spec in Hx. rewrite leb_spec.
  change (Prim2SF neg_infinity) with (S754_infinity true).
  destruct (Prim2SF x) as [s|s| |s m e]; try destruct s;
    first [reflexivity | discriminate].
Qed.

Lemma above_everything x : notNaN x → (x <=? infinity)%float = true.
Proof.
  intros Hx. apply notNaN_spec in Hx. rewrite leb_spec.
  change (Prim2SF infinity) with (S754_infinity false).
  destruct (Prim2SF x) as [s|s| |s m e]; try destruct s;
    first [reflexivity | discriminate].
Qed.

Lemma order_against_zero x :
  notNaN x →
  ((x =? 0)%float = true → (x <=? 0)%float = true ∧ (0 <=? x)%float = true) ∧
  ((x <? 0)%float = true → (x <=? 0)%float = true) ∧
  ((0 <? x)%float = true → (0 <=? x)%float = true) ∧
  ((x <? 0)%float = false → (0 <=? x)%float = true) ∧
  ((0 <? x)%float = false → (x <=? 0)%float = true).
Proof.
  intros Hx. apply notNaN_spec in Hx.
  rewrite !FloatAxioms.eqb_spec, !ltb_spec, !leb_spec, Prim2SF_zero.
  destruct (Prim2SF x) as [s|s| |s m e]; try destruct s;
    try discriminate Hx; cbn;
    (split; [intros H; split | split; [intros H | split; [intros H | split; intros H]]]);
    first [reflexivity | discriminate H].
Qed.

Lemma Min_zero_bounds x :
  notNaN x → (math.Min x 0 <=? 0)%float = true ∧ (math.Min x 0 <=? x)%float = true.
Proof.
  intros Hx. pose proof (leb_refl x Hx) as Hrefl.
  pose proof (below_everything x Hx) as Hbelow.
  destruct (order_against_zero x Hx) as (Heq & Hlt & _ & Hge & _).
  unfold math.Min. rewrite Hx.
  change (math.IsNaN 0) with false. change (math.IsInf 0 (-1)) with false.
  rewrite orb_false_r. cbn [orb].
  destruct (math.IsInf x (-1)); [rewrite Inf_below; split; [reflexivity | exact Hbelow]|].
  destruct (x =? 0)%float eqn:E0; cbn [andb].
  - destruct (Heq eq_refl) as [H1 H2].
    destruct (math.Signbit x); split; first [assumption | reflexivity].
  - destruct (x <? 0)%float eqn:E1.
    + split; [apply Hlt; reflexivity | exact Hrefl].
    + split; [reflexivity | apply Hge; reflexivity].
Qed.

Lemma Max_zero_bounds x :
  notNaN x → (0 <=? math.Max x 0)%float = true ∧ (x <=? math.Max x 0)%float = true.
Proof.
  intros Hx. pose proof (leb_refl x Hx) as Hrefl.
  pose proof (above_everything x Hx) as Habove.
  destruct (order_against_zero x Hx) as (Heq & _ & Hgt & _ & Hle).
  unfold math.Max. rewrite Hx.
  change (math.IsNaN 0) with false. change (math.IsInf 0 1) with false.
  rewrite orb_false_r. cbn [orb].
  destruct (math.IsInf x 1); [rewrite Inf_above; split; [reflexivity | exact Habove]|].
  destruct (x =? 0)%float eqn:E0; cbn [andb].
  - destruct (Heq eq_refl) as [H1 H2].
    destruct (math.Signbit x); split; first [assumption | reflexivity].
  - destruct (0 <? x)%float eqn:E1.
    + split; [apply Hgt; reflexivity | exact Hrefl].
    + split; [reflexivity | apply Hle; reflexivity].
Qed.

(** X9: with a fill colour and no y that is NaN, the y range that
    [DataRange] returns always holds zero, and it only widens the bounding
    box of the points: its least y is at most 0 and at most the least y of
    the points, its greatest y is at least 0 and at least the greatest y of
    the points; the x range is that of the points. *)
Theorem filled_data_range_holds_zero (pts : plotter.Step) (col : color.Color) :
  plotter.FillColor pts = Some col →
  Forall (fun p => notNaN (plotter.Y p)) (plotter.Step_XYs pts) →
  (rangeYmin (plotter.DataRange pts) <=? 0)%float = true ∧
  (0 <=? rangeYmax (plotter.DataRange pts))%float = true ∧
  (rangeYmin (plotter.DataRange pts)
   <=? rangeYmin (plotter.XYRange (plotter.Step_XYs pts)))%float = true ∧
  (rangeYmax (plotter.XYRange (plotter.Step_XYs pts))
   <=? rangeYmax (plotter.DataRange pts))%float = true ∧
  (plotter.DataRange pts).1.1 = (plotter.XYRange (plotter.Step_XYs pts)).1.1.
Proof.
  intros Hcol Hys.
  destruct (Range_notNaN (map plotter.Y (plotter.Step_XYs pts))
              (math.Inf 1) (math.Inf (-1)) eq_refl eq_refl) as [Hmin Hmax].
  { apply Forall_fmap. exact Hys. }
  unfold plotter.DataRange, plotter.XYRange, plotter.Range. rewrite Hcol.
  destruct (foldl _ _ (map plotter.X _)) as [xmin xmax].
  destruct (foldl _ _ (map plotter.Y _)) as [ymin ymax].
  unfold rangeYmin, rangeYmax. cbn [fst snd] in *.
  destruct (Min_zero_bounds ymin Hmin) as [H1 H2].
  destruct (Max_zero_bounds ymax Hmax) as [H3 H4].
  repeat split; assumption.
Qed.

Lemma filled_data_range_holds_zero_witness :
  plotter.DataRange crossingStep = (0, 1, -1, 3)%float ∧
  (rangeYmin (plotter.DataRange crossingStep) <=? 0)%float = true ∧
  (0 <=? rangeYmax (plotter.DataRange crossingStep))%float = true.
Proof.
  split; [reflexivity|].
  destruct (filled_data_range_holds_zero crossingStep color.Black eq_refl)
    as (H1 & H2 & _).
  { repeat constructor. }
  split; assumption.
Defined.

(** * Lines put together, lines walked backwards *)

Lemma strokePath_vertices style l p :
  plotter.strokePath style l = Some p → vg.vertices p = strokeVertices style l.
Proof.
  intros Hp. destruct l as [|first rest]; [discriminate Hp|].
  rewrite strokePath_steps in Hp. injection Hp as <-.
  apply vertices_move_lines.
Qed.

Lemma stepsOver_split style l1 : ∀ p l2,
  stepsOver style (l1 ++ p :: l2)
  = stepsOver style (l1 ++ [p]) ++ stepsOver style (p :: l2).
Proof.
  induction l1 as [|a l1 IH]; intros p l2; [reflexivity|].
  destruct l1 as [|b l1].
  - cbn [app]. rewrite !stepsOver_cons, stepsOver_single.
    rewrite <- app_assoc. reflexivity.
  - cbn [app] in IH |- *. rewrite !stepsOver_cons, IH.
    rewrite <- app_assoc. reflexivity.
Qed.

(** X10: the stroke of a line is the stroke of its two parts put together:
    when a line is cut at one of its points, which then ends the first part
    and starts the second, the path of the whole line is the path of the
    first part followed by the path of the second without its move. *)
Theorem stroke_of_joined_lines (style : plotter.StepKind)
    (l1 l2 : list vg.Point) (p : vg.Point) (a b : vg.Path) :
  plotter.strokePath style (l1 ++ [p]) = Some a →
  plotter.strokePath style (p :: l2) = Some b →
  plotter.strokePath style (l1 ++ p :: l2) = Some (a ++ tail b).
Proof.
  intros Ha Hb. rewrite strokePath_steps in Hb. injection Hb as <-.
  destruct l1 as [|first l1].
  - cbn [app] in Ha |- *. rewrite strokePath_steps in Ha. injection Ha as <-.
    rewrite strokePath_steps. reflexivity.
  - cbn [app] in Ha |- *. rewrite strokePath_steps in Ha. injection Ha as <-.
    rewrite strokePath_steps.
    change (first :: l1 ++ p :: l2) with ((first :: l1) ++ p :: l2).
    rewrite stepsOver_split, fmap_app. reflexivity.
Qed.

Lemma stroke_of_joined_lines_witness :
  plotter.strokePath plotter.PostStep scenario
  = Some ([vg.MoveComp (vg.mkPoint 0 1); vg.LineComp (vg.mkPoint 1 1);
           vg.LineComp (vg.mkPoint 1 3)]
          ++ tail [vg.MoveComp (vg.mkPoint 1 3); vg.LineComp (vg.mkPoint 2 3);
                   vg.LineComp (vg.mkPoint 2 2)]).
Proof.
  exact (stroke_of_joined_lines plotter.PostStep [vg.mkPoint 0 1]
           [vg.mkPoint 2 2] (vg.mkPoint 1 3) _ _ eq_refl eq_refl).
Defined.

Lemma strokeVertices_snoc style l y z :
  last l = Some y →
  strokeVertices style (l ++ [z])
  = strokeVertices style l ++ between style y z ++ [z].
Proof.
  intros Hy. destruct l as [|first l]; [discriminate Hy|].
  cbn [app strokeVertices]. f_equal.
  apply last_Some in Hy as [l' Hl'].
  change (first :: l ++ [z]) with ((first :: l) ++ [z]).
  rewrite Hl', <- app_assoc. cbn [app].
  rewrite stepsOver_split. f_equal.
  rewrite stepsOver_cons, stepsOver_single. reflexivity.
Qed.

Lemma strokeVertices_cons style a b l :
  strokeVertices style (a :: b :: l)
  = a :: between style a b ++ strokeVertices style (b :: l).
Proof. cbn [strokeVertices]. rewrite stepsOver_cons. reflexivity. Qed.

Lemma pre_backwards_is_post l :
  strokeVertices plotter.PreStep (reverse l)
  = reverse (strokeVertices plotter.PostStep l).
Proof.
  induction l as [|a l IH]; [reflexivity|].
  destruct l as [|b l]; [reflexivity|].
  rewrite strokeVertices_cons, (reverse_cons (b :: l) a).
  rewrite (strokeVertices_snoc _ _ b) by (rewrite last_reverse; reflexivity).
  rewrite IH. rewrite reverse_cons, reverse_app, <- app_assoc. reflexivity.
Qed.

Lemma post_backwards_is_pre l :
  strokeVertices plotter.PostStep (reverse l)
  = reverse (strokeVertices plotter.PreStep l).
Proof.
  induction l as [|a l IH]; [reflexivity|].
  destruct l as [|b l]; [reflexivity|].
  rewrite strokeVertices_cons, (reverse_cons (b :: l) a).
  rewrite (strokeVertices_snoc _ _ b) by (rewrite last_reverse; reflexivity).
  rewrite IH. rewrite reverse_cons, reverse_app, <- app_assoc. reflexivity.
Qed.

(** X11: a pre step is a post step walked backwards: the stroke of a line
    with a pre step passes through the vertices of the stroke of the
    reversed line with a post step, in the reverse order, and the other way
    round. *)
Theorem pre_and_post_mirror_each_other (l : list vg.Point) (p q : vg.Path) :
  (plotter.strokePath plotter.PostStep l = Some p →
   plotter.strokePath plotter.PreStep (reverse l) = Some q →
   vg.vertices q = reverse (vg.vertices p)) ∧
  (plotter.strokePath plotter.PreStep l = Some p →
   plotter.strokePath plotter.PostStep (reverse l) = Some q →
   vg.vertices q = reverse (vg.vertices p)).
Proof.
  split; intros Hp Hq;
    rewrite (strokePath_vertices _ _ _ Hp), (strokePath_vertices _ _ _ Hq).
  - apply pre_backwards_is_post.
  - apply post_backwards_is_pre.
Qed.

Lemma pre_and_post_mirror_each_other_witness :
  [vg.mkPoint 2 2; vg.mkPoint 2 3; vg.mkPoint 1 3; vg.mkPoint 1 1; vg.mkPoint 0 1]
  = reverse [vg.mkPoint 0 1; vg.mkPoint 1 1; vg.mkPoint 1 3; vg.mkPoint 2 3;
             vg.mkPoint 2 2].
Proof.
  exact (proj1 (pre_and_post_mirror_each_other scenario
                  [vg.MoveComp (vg.mkPoint 0 1); vg.LineComp (vg.mkPoint 1 1);
                   vg.LineComp (vg.mkPoint 1 3); vg.LineComp (vg.mkPoint 2 3);
                   vg.LineComp (vg.mkPoint 2 2)]
                  [vg.MoveComp (vg.mkPoint 2 2); vg.LineComp (vg.mkPoint 2 3);
                   vg.LineComp (vg.mkPoint 1 3); vg.LineComp (vg.mkPoint 1 1);
                   vg.LineComp (vg.mkPoint 0 1)])
           eq_refl eq_refl).
Defined.

(** * A single point, and a step as [NewStep] returns it *)

(** X12: over a single point the fill has no width, whatever the kind:
    every vertex of its path has the x of the point, and there are at most
    three of them. *)
Theorem single_point_fill_has_no_width (style : plotter.StepKind)
    (p : vg.Point) (minY : vg.Length) :
  ∃ pa,
    plotter.fillPath style [p] minY = Some pa ∧
    Forall (fun v => vg.X v = vg.X p) (vg.vertices pa) ∧
    (length (vg.vertices pa) ≤ 3)%nat.
Proof.
  rewrite (fillPath_cons style p [] p minY eq_refl). cbn [plotter.fillLoop].
  eexists. split; [reflexivity|].
  case_bool_decide; cbn; split; first [lia | repeat constructor].
Qed.

Lemma CopyXYs_well_formed data cpy :
  plotter.CopyXYs data = inl cpy →
  Forall (fun p => plotter.malformed p = false) data.
Proof.
  revert cpy. induction data as [|p data IH]; intros cpy; [constructor|].
  simpl. destruct (plotter.malformed p) eqn:Hp; [discriminate|].
  destruct (plotter.CopyXYs data) as [cpy'|]; [|discriminate].
  intros _. constructor; [exact Hp | apply (IH cpy'); reflexivity].
Qed.

(** X13: a step as [NewStep] returns it holds the caller's points, all of
    them with finite coordinates, and draws a line only: [Plot] fills
    nothing and strokes the clipped lines as pre steps, [DataRange] is the
    bounding box of the points with no widening to zero, and [Thumbnail]
    is the one line through the centre in the default line style. *)
Theorem new_step_draws_a_line_only (DefaultLineStyle : draw.LineStyle)
    (xys : plotter.XYer) (s : plotter.Step) (c : draw.Canvas)
    (plt : plot.Plot) :
  plotter.NewStep DefaultLineStyle xys = inl s →
  plotter.Step_XYs s = xys ∧
  Forall (fun p => plotter.malformed p = false) (plotter.Step_XYs s) ∧
  (∃ cmds,
     plotter.Plot s c plt = Some cmds ∧ fills cmds = [] ∧
     strokes cmds
     = omap (plotter.strokePath plotter.PreStep)
         (draw.ClipLinesXY c (pointsOn s c plt))) ∧
  plotter.DataRange s = plotter.XYRange xys ∧
  plotter.Thumbnail s c
  = [draw.StrokeLine2 DefaultLineStyle (vg.X (draw.Min c)) (vg.Y (draw.Center c))
       (vg.X (draw.Max c)) (vg.Y (draw.Center c))].
Proof.
  unfold plotter.NewStep.
  destruct (plotter.CopyXYs xys) as [data|err] eqn:Hcopy; [|discriminate].
  intros [= <-].
  pose proof (CopyXYs_well_formed _ _ Hcopy) as Hfinite.
  apply CopyXYs_copies in Hcopy. subst data.
  split; [reflexivity|]. split; [exact Hfinite|]. split; [|split; reflexivity].
  eexists. split; [apply Plot_commands|].
  rewrite fills_app, strokes_app, fills_strokeCmds, strokes_fillCmds.
  rewrite fills_fillCmds, strokes_strokeCmds. split; reflexivity.
Qed.

Lemma new_step_draws_a_line_only_witness :
  plotter.NewStep thinLine scenarioXYs
  = inl (lineOnly (scenarioStep plotter.PreStep)) ∧
  plotter.Plot (lineOnly (scenarioStep plotter.PreStep)) wholeCanvas identityPlot
  = Some [draw.SetLineStyle thinLine;
          draw.Stroke [vg.MoveComp (vg.mkPoint 0 1); vg.LineComp (vg.mkPoint 0 3);
                       vg.LineComp (vg.mkPoint 1 3); vg.LineComp (vg.mkPoint 1 2);
                       vg.LineComp (vg.mkPoint 2 2)]] ∧
  plotter.Thumbnail (lineOnly (scenarioStep plotter.PreStep)) wholeCanvas
  = [draw.StrokeLine2 thinLine (-10) 0 10 0].
Proof.
  split; [reflexivity|]. split; [reflexivity|].
  apply (new_step_draws_a_line_only thinLine scenarioXYs
           (lineOnly (scenarioStep plotter.PreStep)) wholeCanvas identityPlot
           eq_refl).
Defined.
